(** * Dab search engine: crawler, link-graph index, ranking and delivery

    A shallow embedding of [index.js].  The parts of the program the
    properties below talk about are embedded as executable Rocq functions:

    - the link graph index [indexedUrls], a JavaScript object used as a map
      from URL to page record, kept as an association list in property
      order (insertion order for the keys the crawler can produce);
    - [recalculateRanks], the backlink ranking pass;
    - the persistence layer, [JSON.stringify (_, null, 2)] and [JSON.parse]
      over the bytes of [data.json];
    - the delivery queue ([broadcast] and its interval callback), the
      WebSocket connection handler and the crawler, as transitions over an
      explicit program state.

    Strings are byte strings: a JavaScript string is represented by the
    UTF-8 encoding of its text, which is also how it sits in [data.json].
    Numbers that the program stores ([rank]) are integers; they are kept
    as [Z]. *)

From Stdlib Require Import String Ascii List ZArith Lia Bool Arith Permutation Sorted.
Import ListNotations.

Local Open Scope string_scope.
Local Open Scope list_scope.

(** ** Page records and the link graph index *)

(** [{ title, links, rank }], the value stored under each URL. *)
Record PageRecord : Type := mkPage {
  title : string;
  links : list string;
  rank : Z
}.

Definition with_rank (p : PageRecord) (r : Z) : PageRecord :=
  {| title := title p; links := links p; rank := r |}.

Definition with_links (p : PageRecord) (l : list string) : PageRecord :=
  {| title := title p; links := l; rank := rank p |}.

(** [indexedUrls]: own properties in enumeration order.  Keys are unique in
    every object the program can build; [Obj.set] keeps them so. *)
Definition Index : Type := list (string * PageRecord).

Module Obj.

(** [o[k]], [None] standing for [undefined]. *)
Fixpoint get {A} (o : list (string * A)) (k : string) : option A :=
  match o with
  | [] => None
  | (k', v) :: rest => if String.eqb k' k then Some v else get rest k
  end.

(** [o[k] = v]: an existing property keeps its place, a new one goes
    last. *)
Fixpoint set {A} (o : list (string * A)) (k : string) (v : A)
  : list (string * A) :=
  match o with
  | [] => [(k, v)]
  | (k', v') :: rest =>
      if String.eqb k' k then (k', v) :: rest else (k', v') :: set rest k v
  end.

(** [Object.keys(o)] and [Object.values(o)]. *)
Definition keys {A} (o : list (string * A)) : list string := map fst o.
Definition values {A} (o : list (string * A)) : list A := map snd o.

(** In-place change of the object stored under [k] ([o[k].f = x]). *)
Definition update {A} (o : list (string * A)) (k : string) (f : A -> A)
  : list (string * A) :=
  map (fun kv => if String.eqb (fst kv) k then (fst kv, f (snd kv)) else kv) o.

End Obj.

(** [Array.prototype.includes] on an array of strings. *)
Definition includes (l : list string) (x : string) : bool :=
  existsb (String.eqb x) l.

(** ** The rank engine *)

(** The inner loop of [recalculateRanks]: [rank] starts at 0 and grows by
    10 for every page whose [links] include [url]. *)
Definition backlink_rank (idx : Index) (url : string) : Z :=
  fold_left
    (fun rank page => if includes (links page) url then (rank + 10)%Z else rank)
    (Obj.values idx) 0%Z.

(** [indexedUrls[url].rank = rank]; a missing record makes the assignment
    throw ([None]). *)
Definition set_rank (idx : Index) (url : string) (r : Z) : option Index :=
  match Obj.get idx url with
  | Some _ => Some (Obj.update idx url (fun p => with_rank p r))
  | None => None
  end.

(** The outer [forEach] over [Object.keys(indexedUrls)]; the key array is
    taken once, the index is read and written as the loop goes. *)
Fixpoint rank_loop (urls : list string) (idx : Index) : option Index :=
  match urls with
  | [] => Some idx
  | url :: rest =>
      match set_rank idx url (backlink_rank idx url) with
      | Some idx' => rank_loop rest idx'
      | None => None
      end
  end.

Definition recalculateRanks (idx : Index) : option Index :=
  rank_loop (Obj.keys idx) idx.

(** Number of page records whose [links] array has [url] as a member. *)
Definition referrers (idx : Index) (url : string) : nat :=
  length (filter (fun page => includes (links page) url) (Obj.values idx)).

(** The three-page graph P1 -> {P2}, P2 -> {P3}, P3 -> {P2}. *)
Definition three_pages : Index :=
  [ ("http://p1", mkPage "P1" ["http://p2"] 0);
    ("http://p2", mkPage "P2" ["http://p3"] 0);
    ("http://p3", mkPage "P3" ["http://p2"] 0) ].

(** What the index looks like once the keys in [urls] have been ranked. *)
Definition ranked (urls : list string) (idx0 idx : Index) : Index :=
  map (fun kv =>
         if includes urls (fst kv)
         then (fst kv, with_rank (snd kv) (backlink_rank idx0 (fst kv)))
         else kv) idx.

(** ** Persistence: the JSON text of [data.json] *)

Module JSON.

Local Open Scope char_scope.

Definition dquote : ascii := "034".
Definition backslash : ascii := "092".
Definition LF : ascii := "010".

(** *** Writing: [JSON.stringify(value, null, 2)] *)

Definition hex_digit (n : N) : ascii :=
  nth (N.to_nat n) ["0"; "1"; "2"; "3"; "4"; "5"; "6"; "7"; "8"; "9";
         "a"; "b"; "c"; "d"; "e"; "f"] "0".

(** One character of QuoteJSONString: the quote and the backslash are
    escaped, control characters get their short escape or [\u00xx], any
    other byte is copied (the text is well-formed, so there is no lone
    surrogate to escape). *)
Definition escape_char (c : ascii) : string :=
  if Ascii.eqb c dquote then String backslash (String dquote EmptyString)
  else if Ascii.eqb c backslash
       then String backslash (String backslash EmptyString)
  else if Ascii.eqb c "008" then String backslash "b"
  else if Ascii.eqb c "012" then String backslash "f"
  else if Ascii.eqb c "010" then String backslash "n"
  else if Ascii.eqb c "013" then String backslash "r"
  else if Ascii.eqb c "009" then String backslash "t"
  else if (N_of_ascii c <? 32)%N
       then String backslash
              (String "u" (String "0" (String "0"
                 (String (hex_digit (N_of_ascii c / 16))
                    (String (hex_digit (N_of_ascii c mod 16))
                       EmptyString)))))
  else String c EmptyString.

Fixpoint escape (s : string) : string :=
  match s with
  | EmptyString => EmptyString
  | String c r => (escape_char c ++ escape r)%string
  end.

Definition quote (s : string) : string :=
  String dquote (escape s ++ String dquote EmptyString)%string.

Definition digit_char (n : N) : ascii := ascii_of_N (48 + n).

(** Decimal digits of a natural number, most significant first. *)
Fixpoint dec_digits (fuel : nat) (n : N) (acc : string) : string :=
  match fuel with
  | O => acc
  | S f =>
      let acc' := String (digit_char (n mod 10)) acc in
      if (n <? 10)%N then acc' else dec_digits f (n / 10) acc'
  end.

Definition N_to_string (n : N) : string :=
  dec_digits (S (N.to_nat (N.log2 n))) n EmptyString.

(** Number::toString on an integer: plain decimal digits, which is what
    JavaScript writes for every integer below 10^21 in absolute value; a
    rank is 10 times a count of page records. *)
Definition number_to_string (z : Z) : string :=
  if (z <? 0)%Z then String "-" (N_to_string (Z.abs_N z))
  else N_to_string (Z.abs_N z).

Definition gap : string := "  "%string.

(** The common part of SerializeJSONObject and SerializeJSONArray with a
    non-empty gap: the already serialised members, one per line, indented
    one step deeper than the enclosing [stepback]. *)
Definition block (opening closing : ascii) (stepback : string)
    (partial : list string) : string :=
  match partial with
  | [] => String opening (String closing EmptyString)
  | _ =>
      let indent := (stepback ++ gap)%string in
      (String opening
         (String LF
            (indent
             ++ String.concat (String "," (String LF indent)) partial
             ++ String LF (stepback ++ String closing EmptyString))))%string
  end.

Definition member (k v : string) : string :=
  (quote k ++ String ":" (String " " v))%string.

Definition stringify_array (stepback : string) (l : list string) : string :=
  block "[" "]" stepback (map quote l).

(** A page record, its properties in creation order. *)
Definition stringify_record (stepback : string) (p : PageRecord) : string :=
  block "{" "}" stepback
    [ member "title"%string (quote (title p));
      member "links"%string (stringify_array (stepback ++ gap) (links p));
      member "rank"%string (number_to_string (rank p)) ].

(** One member of the serialised index: the URL and its record. *)
Definition index_member (kv : string * PageRecord) : string :=
  member (fst kv) (stringify_record gap (snd kv)).

(** [JSON.stringify(indexedUrls, null, 2)]. *)
Definition stringify (idx : Index) : string :=
  block "{" "}" EmptyString (map index_member idx).


(** *** Reading: [JSON.parse(text)] *)

(** A JSON number, kept exact: an integer, or [m * 10^e] with [e < 0]
    and [m] not a multiple of 10. *)
Inductive number : Type :=
| Int (z : Z)
| Dec (m e : Z).

#[local] Unset Elimination Schemes.
Inductive value : Type :=
| JNull
| JBool (b : bool)
| JNum (n : number)
| JStr (s : string)
| JArr (l : list value)
| JObj (o : list (string * value)).
#[local] Set Elimination Schemes.

Inductive result (A : Type) : Type :=
| Ok (a : A) (rest : string)
| SyntaxError
| OutOfFuel.
Arguments Ok {A} a rest.
Arguments SyntaxError {A}.
Arguments OutOfFuel {A}.

Definition bind {A B} (r : result A) (k : A -> string -> result B)
  : result B :=
  match r with
  | Ok a rest => k a rest
  | SyntaxError => SyntaxError
  | OutOfFuel => OutOfFuel
  end.

Definition is_ws (c : ascii) : bool :=
  Ascii.eqb c " " || Ascii.eqb c "009" || Ascii.eqb c "010"
  || Ascii.eqb c "013".

Fixpoint skip_ws (s : string) : string :=
  match s with
  | String c r => if is_ws c then skip_ws r else s
  | EmptyString => s
  end.

Definition is_digit (c : ascii) : bool :=
  (48 <=? N_of_ascii c)%N && (N_of_ascii c <=? 57)%N.

Definition hex_value (c : ascii) : option N :=
  let n := N_of_ascii c in
  if (48 <=? n)%N && (n <=? 57)%N then Some (n - 48)%N
  else if (97 <=? n)%N && (n <=? 102)%N then Some (n - 87)%N
  else if (65 <=? n)%N && (n <=? 70)%N then Some (n - 55)%N
  else None.

Definition hex4 (a b c d : ascii) : option N :=
  match hex_value a, hex_value b, hex_value c, hex_value d with
  | Some x, Some y, Some z, Some w =>
      Some (((x * 16 + y) * 16 + z) * 16 + w)%N
  | _, _, _, _ => None
  end.

(** UTF-8 bytes of a code point (a lone surrogate keeps its three-byte
    form). *)
Definition utf8 (n : N) : string :=
  let b k := ascii_of_N k in
  (if n <? 128 then String (b n) EmptyString
  else if n <? 2048
       then String (b (192 + n / 64)) (String (b (128 + n mod 64)) EmptyString)
  else if n <? 65536
       then String (b (224 + n / 4096))
              (String (b (128 + (n / 64) mod 64))
                 (String (b (128 + n mod 64)) EmptyString))
  else String (b (240 + n / 262144))
         (String (b (128 + (n / 4096) mod 64))
            (String (b (128 + (n / 64) mod 64))
               (String (b (128 + n mod 64)) EmptyString))))%N.

Definition is_high_surrogate (n : N) : bool :=
  (55296 <=? n)%N && (n <=? 56319)%N.
Definition is_low_surrogate (n : N) : bool :=
  (56320 <=? n)%N && (n <=? 57343)%N.

Definition prepend (p : string) (r : result string) : result string :=
  bind r (fun s rest => Ok (p ++ s)%string rest).

(** The low half of a surrogate pair, when the text goes on with one. *)
Definition low_escape (s : string) : option (N * string) :=
  match s with
  | String b (String u (String h1 (String h2 (String h3 (String h4 r))))) =>
      if Ascii.eqb b backslash && Ascii.eqb u "u" then
        match hex4 h1 h2 h3 h4 with
        | Some m => if is_low_surrogate m then Some (m, r) else None
        | None => None
        end
      else None
  | _ => None
  end.

(** The inside of a string literal, up to and including the closing
    quote. *)
Fixpoint parse_chars (s : string) : result string :=
  match s with
  | EmptyString => SyntaxError
  | String c r =>
      if Ascii.eqb c dquote then Ok EmptyString r
      else if Ascii.eqb c backslash then
        match r with
        | EmptyString => SyntaxError
        | String e r1 =>
            let one x := prepend (String x EmptyString) (parse_chars r1) in
            if Ascii.eqb e dquote then one dquote
            else if Ascii.eqb e backslash then one backslash
            else if Ascii.eqb e "/" then one "/"
            else if Ascii.eqb e "b" then one "008"
            else if Ascii.eqb e "f" then one "012"
            else if Ascii.eqb e "n" then one "010"
            else if Ascii.eqb e "r" then one "013"
            else if Ascii.eqb e "t" then one "009"
            else if Ascii.eqb e "u" then
              match r1 with
              | String h1 (String h2 (String h3 (String h4 r2))) =>
                  match hex4 h1 h2 h3 h4 with
                  | None => SyntaxError
                  | Some n =>
                      if is_high_surrogate n then
                        match r2 with
                        | String b (String u (String g1 (String g2
                            (String g3 (String g4 r3))))) =>
                            match low_escape r2 with
                            | Some (m, _) =>
                                prepend
                                  (utf8 (65536 + (n - 55296) * 1024
                                         + (m - 56320))%N)
                                  (parse_chars r3)
                            | None => prepend (utf8 n) (parse_chars r2)
                            end
                        | _ => prepend (utf8 n) (parse_chars r2)
                        end
                      else prepend (utf8 n) (parse_chars r2)
                  end
              | _ => SyntaxError
              end
            else SyntaxError
        end
      else if (N_of_ascii c <? 32)%N then SyntaxError
      else prepend (String c EmptyString) (parse_chars r)
  end.

(** The longest run of digits at the front of [s], and what follows. *)
Fixpoint span_digits (s : string) : string * string :=
  match s with
  | String c r =>
      if is_digit c
      then let (ds, rest) := span_digits r in (String c ds, rest)
      else (EmptyString, s)
  | EmptyString => (EmptyString, s)
  end.

Fixpoint digits_value (ds : string) (acc : N) : N :=
  match ds with
  | String c r => digits_value r (acc * 10 + (N_of_ascii c - 48))%N
  | EmptyString => acc
  end.

(** [m * 10^e] for [e < 0]: trailing zeros of [m] are traded for
    exponent, at most [k] times. *)
Fixpoint reduce (k : nat) (m e : Z) : number :=
  match k with
  | O => if (0 <=? e)%Z then Int (m * 10 ^ e) else Dec m e
  | S k' =>
      if (0 <=? e)%Z then Int (m * 10 ^ e)
      else if (m =? 0)%Z then Int 0
      else if (m mod 10 =? 0)%Z then reduce k' (m / 10) (e + 1)
      else Dec m e
  end.

Definition make_number (neg : bool) (ds fs : string)
    (ex : option (bool * string)) : number :=
  let m := Z.of_N (digits_value (ds ++ fs) 0) in
  let x := match ex with
           | Some (eneg, es) =>
               let v := Z.of_N (digits_value es 0) in
               if eneg then (- v)%Z else v
           | None => 0%Z
           end in
  let e := (x - Z.of_nat (String.length fs))%Z in
  reduce (Z.to_nat (- e)) (if neg then (- m)%Z else m) e.

(** The fraction of a number, if there is one. *)
Definition parse_frac (s : string) : result string :=
  match s with
  | String c r =>
      if Ascii.eqb c "." then
        let (fs, rest) := span_digits r in
        match fs with
        | EmptyString => SyntaxError
        | _ => Ok fs rest
        end
      else Ok EmptyString s
  | EmptyString => Ok EmptyString s
  end.

(** The exponent of a number, if there is one. *)
Definition parse_exp (s : string) : result (option (bool * string)) :=
  match s with
  | String c r =>
      if Ascii.eqb c "e" || Ascii.eqb c "E" then
        let (eneg, r1) :=
          match r with
          | String sg r' =>
              if Ascii.eqb sg "-" then (true, r')
              else if Ascii.eqb sg "+" then (false, r')
              else (false, r)
          | EmptyString => (false, r)
          end in
        let (es, rest) := span_digits r1 in
        match es with
        | EmptyString => SyntaxError
        | _ => Ok (Some (eneg, es)) rest
        end
      else Ok None s
  | EmptyString => Ok None s
  end.

Definition parse_number (s : string) : result value :=
  let (neg, s1) :=
    match s with
    | String c r => if Ascii.eqb c "-" then (true, r) else (false, s)
    | EmptyString => (false, s)
    end in
  let (ds, s2) := span_digits s1 in
  match ds with
  | EmptyString => SyntaxError
  | String d more =>
      if Ascii.eqb d "0" && negb (String.eqb more EmptyString)
      then SyntaxError
      else
        bind (parse_frac s2) (fun fs s3 =>
        bind (parse_exp s3) (fun ex s4 =>
        Ok (JNum (make_number neg ds fs ex)) s4))
  end.

(** [s] without its prefix [lit], if it starts with it. *)
Fixpoint strip_prefix (lit s : string) : option string :=
  match lit, s with
  | EmptyString, _ => Some s
  | String a lit', String b s' =>
      if Ascii.eqb a b then strip_prefix lit' s' else None
  | String _ _, EmptyString => None
  end.

Definition parse_literal (lit : string) (v : value) (s : string)
  : result value :=
  match strip_prefix lit s with
  | Some rest => Ok v rest
  | None => SyntaxError
  end.

(** A value that is neither an array nor an object; [s] starts at its
    first character. *)
Definition parse_scalar (s : string) : result value :=
  match s with
  | EmptyString => SyntaxError
  | String c r =>
      if Ascii.eqb c dquote then bind (parse_chars r) (fun x rest => Ok (JStr x) rest)
      else if Ascii.eqb c "t" then parse_literal "true" (JBool true) s
      else if Ascii.eqb c "f" then parse_literal "false" (JBool false) s
      else if Ascii.eqb c "n" then parse_literal "null" JNull s
      else parse_number s
  end.

Definition expect (c : ascii) {A} (s : string) (k : string -> result A)
  : result A :=
  match skip_ws s with
  | String c' r => if Ascii.eqb c' c then k r else SyntaxError
  | EmptyString => SyntaxError
  end.

(** After a member or an element: a separator, or the closing bracket. *)
Definition continue (closing : ascii) {A} (s : string)
    (more : string -> result A) (done : string -> result A) : result A :=
  match skip_ws s with
  | String c r =>
      if Ascii.eqb c "," then more r
      else if Ascii.eqb c closing then done r
      else SyntaxError
  | EmptyString => SyntaxError
  end.

Fixpoint parse_value (fuel : nat) (s : string) : result value :=
  match fuel with
  | O => OutOfFuel
  | S f =>
      match skip_ws s with
      | EmptyString => SyntaxError
      | String c r =>
          if Ascii.eqb c "[" then
            match skip_ws r with
            | EmptyString => SyntaxError
            | String c' r' =>
                if Ascii.eqb c' "]" then Ok (JArr []) r'
                else parse_elements f r []
            end
          else if Ascii.eqb c "{" then
            match skip_ws r with
            | EmptyString => SyntaxError
            | String c' r' =>
                if Ascii.eqb c' "}" then Ok (JObj []) r'
                else parse_members f r []
            end
          else parse_scalar (String c r)
      end
  end
with parse_elements (fuel : nat) (s : string) (acc : list value)
  : result value :=
  match fuel with
  | O => OutOfFuel
  | S f =>
      bind (parse_value f s) (fun v r =>
      continue "]" r
        (fun r' => parse_elements f r' (acc ++ [v]))
        (fun r' => Ok (JArr (acc ++ [v])) r'))
  end
with parse_members (fuel : nat) (s : string) (acc : list (string * value))
  : result value :=
  match fuel with
  | O => OutOfFuel
  | S f =>
      expect dquote s (fun r0 =>
      bind (parse_chars r0) (fun k r1 =>
      expect ":" r1 (fun r2 =>
      bind (parse_value f r2) (fun v r3 =>
      continue "}" r3
        (fun r' => parse_members f r' (Obj.set acc k v))
        (fun r' => Ok (JObj (Obj.set acc k v)) r')))))
  end.

(** [JSON.parse]: one value, with nothing but white space after it.
    [None] is a SyntaxError. *)
Definition parse (text : string) : option value :=
  match parse_value (2 * String.length text + 2) text with
  | Ok v rest =>
      match skip_ws rest with
      | EmptyString => Some v
      | _ => None
      end
  | _ => None
  end.

(** What may follow a number in the text this program writes: the end of
    the text, a comma or a line feed. *)
Definition terminated (rest : string) : Prop :=
  rest = EmptyString \/
  exists r, rest = String "," r \/ rest = String LF r.

Fixpoint all_digits (s : string) : bool :=
  match s with
  | EmptyString => true
  | String c r => is_digit c && all_digits r
  end.

Fixpoint all_ws (s : string) : bool :=
  match s with
  | EmptyString => true
  | String c r => is_ws c && all_ws r
  end.

(** What stands between two members of a block. *)
Definition separator (indent : string) : string :=
  String "," (String LF indent).

(** *** Vocabulary for the fuel of the parser *)

(** [r'] is what [r] becomes with more fuel. *)
Definition fuel_le {A} (r r' : result A) : Prop :=
  r = OutOfFuel \/ r = r'.

(** A result that leaves less text than it was given. *)
Definition shrinks {A} (s : string) (res : result A) : Prop :=
  match res with
  | Ok _ r => String.length r < String.length s
  | _ => True
  end.

(** A result of a parser that needs no fuel: never out of fuel, and
    shorter text left on success. *)
Definition good {A} (s : string) (res : result A) : Prop :=
  res <> OutOfFuel /\ shrinks s res.

(** *** Page records as JSON values *)



(** The value [JSON.stringify] walks when it is handed the index. *)
Definition value_of_record (p : PageRecord) : value :=
  JObj [ ("title"%string, JStr (title p));
         ("links"%string, JArr (map JStr (links p)));
         ("rank"%string, JNum (Int (rank p))) ].

Definition entry_value (kv : string * PageRecord) : string * value :=
  (fst kv, value_of_record (snd kv)).

Definition value_of_index (idx : Index) : value :=
  JObj (map entry_value idx).

Fixpoint strings_of (l : list value) : option (list string) :=
  match l with
  | [] => Some []
  | JStr s :: r => option_map (cons s) (strings_of r)
  | _ :: _ => None
  end.

(** A parsed value read as a page record: an object with exactly a string
    [title], an array of strings [links] and an integer [rank], in any
    order. *)
Definition record_of_value (v : value) : option PageRecord :=
  match v with
  | JObj o =>
      match Obj.get o "title"%string, Obj.get o "links"%string, Obj.get o "rank"%string with
      | Some (JStr t), Some (JArr l), Some (JNum (Int r)) =>
          if Nat.eqb (List.length o) 3
          then option_map (fun ls => mkPage t ls r) (strings_of l)
          else None
      | _, _, _ => None
      end
  | _ => None
  end.

Fixpoint records_of (o : list (string * value)) : option Index :=
  match o with
  | [] => Some []
  | (k, v) :: rest =>
      match record_of_value v, records_of rest with
      | Some p, Some idx => Some ((k, p) :: idx)
      | _, _ => None
      end
  end.

(** A parsed value read as a link graph index. *)
Definition index_of_value (v : value) : option Index :=
  match v with
  | JObj o => records_of o
  | _ => None
  end.

End JSON.

(** ** The running program *)

(** [ws.readyState]. *)
Inductive ReadyState : Type := CONNECTING | OPEN | CLOSING | CLOSED.

Definition is_open (r : ReadyState) : bool :=
  match r with OPEN => true | _ => false end.

(** The object handed to [JSON.stringify] for a viewer; [data] is
    [indexedUrls[url]], [None] when there is no such property. *)
Record Message : Type := mkMessage {
  msg_url : string;
  msg_data : option PageRecord
}.

(** A WebSocket, named by [cid], with the messages sent over it so far,
    oldest first. *)
Record Client : Type := mkClient {
  cid : nat;
  readyState : ReadyState;
  sent : list Message
}.

(** What the program writes to the console. *)
Inductive LogEntry : Type :=
| LogDataLoaded
| LogLoadError
| LogNoDataFile
| LogCrawling (url : string)
| LogIndexed (url : string) (found : nat)
| LogDataSaved
| LogSaveError
| LogCrawlError (url : string) (message : string)
| LogRanksRecalculated
| LogConnected
| LogClosed.

(** The outcome of [axios.get] followed by [cheerio.load]: the text of the
    title element and the [href] attribute of every anchor, in document
    order ([None] for an anchor without one), or the error thrown. *)
Inductive Response : Type :=
| FetchOk (page_title : string) (anchors : list (option string))
| FetchError (message : string).

(** The globals of [index.js], the file [data.json], the crawl calls
    suspended at [await axios.get(url)], the number of intervals started by
    [broadcast] (none is ever cleared), and the console. *)
Record State : Type := mkState {
  visited : list string;
  indexedUrls : Index;
  clients : list Client;
  broadcastQueue : list string;
  isBroadcasting : bool;
  timers : nat;
  data_json : option string;
  pending : list (string * nat);
  console : list LogEntry
}.

Definition set_visited (v : list string) (st : State) : State :=
  mkState v (indexedUrls st) (clients st) (broadcastQueue st)
    (isBroadcasting st) (timers st) (data_json st) (pending st) (console st).

Definition set_index (idx : Index) (st : State) : State :=
  mkState (visited st) idx (clients st) (broadcastQueue st)
    (isBroadcasting st) (timers st) (data_json st) (pending st) (console st).

Definition set_clients (cs : list Client) (st : State) : State :=
  mkState (visited st) (indexedUrls st) cs (broadcastQueue st)
    (isBroadcasting st) (timers st) (data_json st) (pending st) (console st).

Definition set_queue (q : list string) (st : State) : State :=
  mkState (visited st) (indexedUrls st) (clients st) q
    (isBroadcasting st) (timers st) (data_json st) (pending st) (console st).

Definition set_broadcasting (b : bool) (st : State) : State :=
  mkState (visited st) (indexedUrls st) (clients st) (broadcastQueue st)
    b (timers st) (data_json st) (pending st) (console st).

Definition set_timers (n : nat) (st : State) : State :=
  mkState (visited st) (indexedUrls st) (clients st) (broadcastQueue st)
    (isBroadcasting st) n (data_json st) (pending st) (console st).

Definition set_data_json (d : option string) (st : State) : State :=
  mkState (visited st) (indexedUrls st) (clients st) (broadcastQueue st)
    (isBroadcasting st) (timers st) d (pending st) (console st).

Definition set_pending (p : list (string * nat)) (st : State) : State :=
  mkState (visited st) (indexedUrls st) (clients st) (broadcastQueue st)
    (isBroadcasting st) (timers st) (data_json st) p (console st).

Definition log (e : LogEntry) (st : State) : State :=
  mkState (visited st) (indexedUrls st) (clients st) (broadcastQueue st)
    (isBroadcasting st) (timers st) (data_json st) (pending st)
    (console st ++ [e]).

(** The state before the first statement runs, with [data.json] as found
    on disk. *)
Definition initial (disk : option string) : State :=
  mkState [] [] [] [] false 0 disk [] [].

(** *** The delivery queue *)

(** [client.send(JSON.stringify({ url, data }))] when the socket is open. *)
Definition send (m : Message) (c : Client) : Client :=
  if is_open (readyState c)
  then mkClient (cid c) (readyState c) (sent c ++ [m])
  else c.

(** [broadcast(url)]: the URL joins the queue; if no drain is thought to
    be running, a new interval is started. *)
Definition broadcast (url : string) (st : State) : State :=
  let st1 := set_queue (broadcastQueue st ++ [url]) st in
  if isBroadcasting st1 then st1
  else set_timers (S (timers st1)) (set_broadcasting true st1).

(** One firing of the interval started by [broadcast]. *)
Definition drainTick (st : State) : State :=
  match broadcastQueue st with
  | urlToSend :: rest =>
      let m := mkMessage urlToSend (Obj.get (indexedUrls st) urlToSend) in
      set_clients (map (send m) (clients st)) (set_queue rest st)
  | [] => set_broadcasting false st
  end.

Fixpoint ticks (n : nat) (st : State) : State :=
  match n with
  | O => st
  | S n' => ticks n' (drainTick st)
  end.

(** [urls.forEach(url => broadcast(url))]. *)
Definition broadcast_all (urls : list string) (st : State) : State :=
  fold_left (fun s url => broadcast url s) urls st.

(** *** Start-up *)

(** The statements that read [data.json].  The result is [None] when the
    file parses to a value that is not a link graph index (and not [null]):
    the program then goes on with that value in [indexedUrls], which this
    model of the index cannot hold. *)
Definition startup_load (st : State) : option State :=
  match data_json st with
  | Some rawData =>
      match JSON.parse rawData with
      | None => Some (set_index [] (log LogLoadError st))
      | Some JSON.JNull =>
          Some (set_index [] (log LogLoadError (log LogDataLoaded st)))
      | Some v =>
          match JSON.index_of_value v with
          | Some idx =>
              Some (broadcast_all (firstn 100 (Obj.keys idx))
                      (log LogDataLoaded (set_index idx st)))
          | None => None
          end
      end
  | None => Some (log LogNoDataFile st)
  end.

(** *** The crawler *)

Definition seed : string := "https://tolagaming.github.io/crawlerdream/".

(** [href && href.startsWith('http')]. *)
Definition keep_href (href : option string) : bool :=
  match href with
  | Some h => negb (String.eqb h "") && String.prefix "http" h
  | None => false
  end.

(** The loop over the anchors of the page. *)
Fixpoint extract_links (anchors : list (option string)) : list string :=
  match anchors with
  | [] => []
  | href :: rest =>
      if keep_href href
      then match href with
           | Some h => h :: extract_links rest
           | None => extract_links rest
           end
      else extract_links rest
  end.

(** [crawl(url, depth)] up to [await axios.get(url)]: the two guards, the
    visited mark, and the request left in flight. *)
Definition crawl (url : string) (depth : nat) (st : State) : State :=
  if Nat.eqb depth 0 then st
  else if includes (visited st) url then st
  else set_pending (pending st ++ [(url, depth)])
         (log (LogCrawling url) (set_visited (visited st ++ [url]) st)).

(** [fs.writeFileSync('data.json', JSON.stringify(indexedUrls, null, 2))]
    inside its own [try]; [write_ok] tells whether the write goes through. *)
Definition save (write_ok : bool) (st : State) : State :=
  if write_ok
  then log LogDataSaved
         (set_data_json (Some (JSON.stringify (indexedUrls st))) st)
  else log LogSaveError st.

(** How a [try] block ends. *)
Inductive Completion : Type :=
| Normal (st : State)
| Throw (message : string) (st : State).

(** The body of the [try] in [crawl], from the answer of [axios.get] to
    the start of the recursive calls. *)
Definition crawl_try (url : string) (depth : nat) (resp : Response)
    (write_ok : bool) (st : State) : Completion :=
  match resp with
  | FetchError message => Throw message st
  | FetchOk page_title anchors =>
      let t := if String.eqb page_title "" then "No title" else page_title in
      let st1 := set_index (Obj.set (indexedUrls st) url (mkPage t [] 0)) st in
      let found := extract_links anchors in
      let st2 := set_index
                   (Obj.update (indexedUrls st1) url
                      (fun p => with_links p found)) st1 in
      let st3 := log (LogIndexed url (List.length found)) st2 in
      let st4 := save write_ok st3 in
      let st5 := broadcast url st4 in
      Normal (fold_left (fun s link => crawl link (depth - 1) s) found st5)
  end.

(** The rest of [crawl(url, depth)] once [axios.get] has answered, with the
    [catch] clause. *)
Definition crawl_resume (url : string) (depth : nat) (resp : Response)
    (write_ok : bool) (st : State) : State :=
  match crawl_try url depth resp write_ok st with
  | Normal st' => st'
  | Throw message st' => log (LogCrawlError url message) st'
  end.

(** *** Viewers *)

(** The [connection] handler: the socket joins [clients] and is sent every
    record of the index. *)
Definition on_connection (id : nat) (rs : ReadyState) (st : State) : State :=
  let ws := mkClient id rs [] in
  let idx := indexedUrls st in
  let ws' := fold_left
               (fun c url => send (mkMessage url (Obj.get idx url)) c)
               (Obj.keys idx) ws in
  set_clients (clients st ++ [ws']) (log LogConnected st).

(** [clients.splice(clients.indexOf(ws), 1)]. *)
Fixpoint remove_client (id : nat) (cs : list Client) : list Client :=
  match cs with
  | [] => []
  | c :: rest => if Nat.eqb (cid c) id then rest else c :: remove_client id rest
  end.

(** The [close] handler of a socket. *)
Definition on_close (id : nat) (st : State) : State :=
  log LogClosed (set_clients (remove_client id (clients st)) st).

(** The transport of a socket changes state. *)
Definition set_ready (id : nat) (rs : ReadyState) (st : State) : State :=
  set_clients
    (map (fun c => if Nat.eqb (cid c) id
                   then mkClient (cid c) rs (sent c) else c) (clients st))
    st.

(** The interval running [recalculateRanks]. *)
Definition rank_tick (st : State) : option State :=
  match recalculateRanks (indexedUrls st) with
  | Some idx => Some (log LogRanksRecalculated (set_index idx st))
  | None => None
  end.

(** The whole script: load, then [crawl(seed, 5)]. *)
Definition main (disk : option string) : option State :=
  option_map (crawl seed 5) (startup_load (initial disk)).

(** *** Executions *)

(** What can happen next: a fetch in flight is answered, a timer fires, a
    viewer connects or goes away, the process is started again. *)
Inductive Event : Type :=
| FetchDone (i : nat) (resp : Response) (write_ok : bool)
| DrainTick
| RankTick
| Connect (id : nat) (rs : ReadyState)
| Close (id : nat)
| Transport (id : nat) (rs : ReadyState)
| Reboot.

Fixpoint remove_nth {A} (i : nat) (l : list A) : list A :=
  match l, i with
  | [], _ => []
  | _ :: rest, O => rest
  | x :: rest, S i' => x :: remove_nth i' rest
  end.

Definition apply_event (e : Event) (st : State) : option State :=
  match e with
  | FetchDone i resp write_ok =>
      match nth_error (pending st) i with
      | Some (url, depth) =>
          Some (crawl_resume url depth resp write_ok
                  (set_pending (remove_nth i (pending st)) st))
      | None => None
      end
  | DrainTick => if Nat.ltb 0 (timers st) then Some (drainTick st) else None
  | RankTick => rank_tick st
  | Connect id rs => Some (on_connection id rs st)
  | Close id => Some (on_close id st)
  | Transport id rs => Some (set_ready id rs st)
  | Reboot => main (data_json st)
  end.

Fixpoint run (events : list Event) (st : State) : option State :=
  match events with
  | [] => Some st
  | e :: rest =>
      match apply_event e st with
      | Some st' => run rest st'
      | None => None
      end
  end.

(** An execution in which only fetches are answered, each as the web
    [web] says: [choices] picks the fetch answered next and whether the
    write to disk goes through. *)
Fixpoint crawl_run (web : string -> Response) (choices : list (nat * bool))
    (st : State) : option State :=
  match choices with
  | [] => Some st
  | (i, w) :: rest =>
      match nth_error (pending st) i with
      | Some (url, _) =>
          match apply_event (FetchDone i (web url) w) st with
          | Some st' => crawl_run web rest st'
          | None => None
          end
      | None => None
      end
  end.

(** *** Vocabulary of the properties *)

(** The message a drain tick or a replay sends for [url] when the index is
    [idx]. *)
Definition message_for (idx : Index) (url : string) : Message :=
  mkMessage url (Obj.get idx url).

(** A viewer after the messages for [urls] have been pushed to it. *)
Definition delivered (idx : Index) (urls : list string) (c : Client) : Client :=
  if is_open (readyState c)
  then mkClient (cid c) (readyState c) (sent c ++ map (message_for idx) urls)
  else c.

(** Every link of the record starts with [http]. *)
Definition http_links (p : PageRecord) : Prop :=
  Forall (fun l => String.prefix "http" l = true) (links p).

Definition index_ok (idx : Index) : Prop :=
  NoDup (Obj.keys idx) /\ Forall (fun kv => http_links (snd kv)) idx.

Definition disk_ok (d : option string) : Prop :=
  match d with
  | None => True
  | Some doc => exists idx, doc = JSON.stringify idx /\ index_ok idx
  end.

Definition message_ok (m : Message) : Prop :=
  match msg_data m with
  | Some p => http_links p
  | None => True
  end.

Definition link_invariant (st : State) : Prop :=
  index_ok (indexedUrls st) /\
  disk_ok (data_json st) /\
  Forall (fun c => Forall message_ok (sent c)) (clients st).

(** The state in which the script leaves a machine without [data.json]. *)
Definition boot : State :=
  crawl seed 5 (log LogNoDataFile (initial None)).

(** A small web: the seed links to [page_a]; [page_a] links back. *)
Definition page_a : string := "http://a.example/".
Definition page_b : string := "http://b.example/".

Definition loop_events : list Event :=
  [ Connect 1 OPEN;
    FetchDone 0 (FetchOk "Seed" [Some page_a]) true;
    FetchDone 0 (FetchOk "A" [Some seed]) true ].

(** A web in which the seed links to a page that answers and to one that
    does not. *)
Definition half_web (url : string) : Response :=
  if String.eqb url seed then FetchOk "Seed" [Some page_a; Some page_b]
  else if String.eqb url page_a then FetchOk "A" []
  else FetchError "connect ECONNREFUSED".

Definition has_record (st : State) (url : string) : bool :=
  match Obj.get (indexedUrls st) url with
  | Some _ => true
  | None => false
  end.

(** The script started on a machine without [data.json], with the crawl
    depth set to [depth]. *)
Definition boot_at (depth : nat) : State :=
  crawl seed depth (log LogNoDataFile (initial None)).

(** The parts of the state the link invariant reads. *)
Definition core (st : State) : Index * option string * list Client :=
  (indexedUrls st, data_json st, clients st).

(** ** More of the program: one run of the process, the viewer's page *)

Definition is_reboot (e : Event) : bool :=
  match e with
  | Reboot => true
  | _ => false
  end.

(** An execution that stays within one run of the process. *)
Definition one_process (events : list Event) : Prop :=
  forallb (fun e => negb (is_reboot e)) events = true.

(** The URL whose fetch an event answers, if it answers one. *)
Definition answered_by (e : Event) (st : State) : list string :=
  match e with
  | FetchDone i _ _ =>
      match nth_error (pending st) i with
      | Some (url, _) => [url]
      | None => []
      end
  | _ => []
  end.

(** The URLs whose fetches are answered along an execution, in order. *)
Fixpoint answered (events : list Event) (st : State) : list string :=
  match events with
  | [] => []
  | e :: rest =>
      match apply_event e st with
      | Some st' => answered_by e st ++ answered rest st'
      | None => []
      end
  end.

(** One URL is queued on an idle queue, a tick delivers it, the next tick
    finds the queue empty. *)
Definition quiet_cycle (st : State) (url : string) : State :=
  drainTick (drainTick (broadcast url st)).


(** The fetches in flight and those already answered ([done]) are for
    distinct URLs, all marked visited. *)
Definition dispatched_once (done : list string) (st : State) : Prop :=
  NoDup (done ++ map fst (pending st)) /\
  incl (done ++ map fst (pending st)) (visited st).

Definition depth_in_range (st : State) : Prop :=
  Forall (fun ud => 1 <= snd ud <= 5) (pending st).


(** The index once [crawl] has written the record of [url]. *)
Definition crawled_index (idx : Index) (url page_title : string)
    (anchors : list (option string)) : Index :=
  Obj.update
    (Obj.set idx url
       (mkPage (if String.eqb page_title "" then "No title" else page_title)
          [] 0))
    url (fun p => with_links p (extract_links anchors)).

(** What [crawl] does after it has written the record: the log line, the
    save, the broadcast and the recursive calls. *)
Definition after_record (url : string) (depth : nat) (found : list string)
    (write_ok : bool) (st : State) : State :=
  fold_left (fun s link => crawl link (depth - 1) s) found
    (broadcast url
       (save write_ok (log (LogIndexed url (List.length found)) st))).

(** ** The viewer's page: the script served at [/] *)

(** The page's own [indexedUrls]: what the last message for each URL
    carried, [None] when the message had no [data]. *)
Definition Store : Type := list (string * option PageRecord).

(** [socket.onmessage]: [indexedUrls[url] = data]. *)
Definition onmessage (store : Store) (m : Message) : Store :=
  Obj.set store (msg_url m) (msg_data m).

Definition receive_all (ms : list Message) (store : Store) : Store :=
  fold_left onmessage ms store.

(** [s.includes(q)] on strings: [q] occurs somewhere in [s]. *)
Fixpoint contains (q s : string) : bool :=
  String.prefix q s ||
  match s with
  | String _ rest => contains q rest
  | EmptyString => false
  end.

(** One step of the stable sort with the comparator
    [(a, b) => b[1].rank - a[1].rank]: [e], which stood before every entry
    of [l], goes after the entries of higher rank and before the others. *)
Fixpoint insert_by_rank (e : string * PageRecord)
    (l : list (string * PageRecord)) : list (string * PageRecord) :=
  match l with
  | [] => [e]
  | y :: rest =>
      if (rank (snd e) <? rank (snd y))%Z
      then y :: insert_by_rank e rest
      else e :: y :: rest
  end.

Definition sort_by_rank (l : list (string * PageRecord))
  : list (string * PageRecord) :=
  fold_right insert_by_rank [] l.

Definition resultsPerPage : nat := 10.

(** [sortedResults.slice(startIndex, endIndex)] for the page numbered
    [page]; for page 0 the start index is negative and the slice empty. *)
Definition slice_page (page : nat) {A} (l : list A) : list A :=
  match page with
  | O => []
  | S p => firstn resultsPerPage (skipn (p * resultsPerPage) l)
  end.

(** [Math.ceil(totalResults / resultsPerPage)]. *)
Definition totalPages (totalResults : nat) : nat :=
  (totalResults + (resultsPerPage - 1)) / resultsPerPage.

(** What the page shows: the links of the result list (address and
    text), whether the [No results found] line replaces them, and the
    pagination buttons with their number and whether they are
    highlighted. *)
Record Rendered : Type := mkRendered {
  results : list (string * string);
  no_results : bool;
  buttons : list (nat * bool)
}.

(** The variables of the script and the value of the search box. *)
Record Page : Type := mkPageState {
  store : Store;
  currentPage : nat;
  searchQuery : string
}.

Section ViewerScript.

(** [String.prototype.toLowerCase], which the script applies to the query
    and to each title. *)
Variable toLowerCase : string -> string.

(** The [filter] over [Object.entries(indexedUrls)]: an entry without data
    makes [data.title] throw ([None]). *)
Fixpoint matching (query : string) (entries : Store)
  : option (list (string * PageRecord)) :=
  match entries with
  | [] => Some []
  | (_, None) :: _ => None
  | (url, Some data) :: rest =>
      match matching query rest with
      | Some l =>
          Some (if contains query (toLowerCase (title data))
                then (url, data) :: l else l)
      | None => None
      end
  end.

(** [sortedResults] of [displayResults]. *)
Definition sortedResults (v : Page) : option (list (string * PageRecord)) :=
  option_map sort_by_rank
    (matching (toLowerCase (searchQuery v)) (store v)).

(** [updatePagination(totalResults)]. *)
Definition updatePagination (totalResults : nat) (v : Page)
  : list (nat * bool) :=
  map (fun i => (i, Nat.eqb i (currentPage v)))
    (seq 1 (totalPages totalResults)).

(** [displayResults(page)]; [None] when the filter throws. *)
Definition displayResults (page : nat) (v : Page) : option Rendered :=
  match sortedResults v with
  | Some sorted =>
      Some (mkRendered
              (map (fun e => (fst e, title (snd e))) (slice_page page sorted))
              (Nat.eqb (List.length sorted) 0)
              (updatePagination (List.length sorted) v))
  | None => None
  end.

(** [search()]. *)
Definition search (v : Page) : Page * option Rendered :=
  let v' := mkPageState (store v) 1 (searchQuery v) in
  (v', displayResults (currentPage v') v').

(** The [onclick] of the button [Row i]. *)
Definition click_row (i : nat) (v : Page) : Page * option Rendered :=
  let v' := mkPageState (store v) i (searchQuery v) in
  (v', displayResults (currentPage v') v').

End ViewerScript.

(** Entries in the order the page ranks them. *)
Definition by_rank (a b : string * PageRecord) : Prop :=
  (rank (snd b) <= rank (snd a))%Z.


(** The entries of the page's copy that carry a record. *)
Definition with_data (s : Store) : list (string * PageRecord) :=
  flat_map (fun e => match snd e with
                     | Some d => [(fst e, d)]
                     | None => []
                     end) s.


(** A page whose copy of the index was built from the messages [ms]. *)
Definition page_of (ms : list Message) (current : nat) (query : string)
  : Page :=
  mkPageState (receive_all ms []) current query.

(** A page that has received two records and searches for [P]. *)
Definition two_messages : list Message :=
  [ mkMessage "http://p1" (Some (mkPage "P1" [] 0));
    mkMessage "http://p2" (Some (mkPage "P2" [] 20)) ].

Definition two_results : list (string * PageRecord) :=
  [ ("http://p2", mkPage "P2" [] 20); ("http://p1", mkPage "P1" [] 0) ].
(** *** Facts about objects *)

Lemma includes_In l x : includes l x = true <-> In x l.
Proof.
  unfold includes. rewrite existsb_exists. split.
  - intros [y [Hy Heq]]. apply String.eqb_eq in Heq. now subst.
  - intros H. exists x. split; [assumption | apply String.eqb_refl].
Qed.

Lemma get_Some_In {A} (o : list (string * A)) k v :
  Obj.get o k = Some v -> In (k, v) o.
Proof.
  induction o as [|[k' v'] o IH]; simpl; [discriminate|].
  destruct (String.eqb k' k) eqn:E.
  - intros [= ->]. apply String.eqb_eq in E. subst. now left.
  - intros H. right. auto.
Qed.

Lemma get_None_keys {A} (o : list (string * A)) k :
  Obj.get o k = None <-> ~ In k (Obj.keys o).
Proof.
  induction o as [|[k' v'] o IH]; simpl.
  - tauto.
  - destruct (String.eqb k' k) eqn:E.
    + apply String.eqb_eq in E. subst. split; [discriminate | tauto].
    + apply String.eqb_neq in E. rewrite IH. tauto.
Qed.

Lemma get_In_keys {A} (o : list (string * A)) k :
  In k (Obj.keys o) -> exists v, Obj.get o k = Some v.
Proof.
  intros H. destruct (Obj.get o k) eqn:E; [eauto|].
  apply get_None_keys in E. contradiction.
Qed.

Lemma keys_update {A} (o : list (string * A)) k f :
  Obj.keys (Obj.update o k f) = Obj.keys o.
Proof.
  unfold Obj.keys, Obj.update. rewrite map_map. apply map_ext.
  intros [k' v]; simpl. now destruct (String.eqb k' k).
Qed.

Lemma get_update {A} (o : list (string * A)) k f u :
  Obj.get (Obj.update o k f) u =
  match Obj.get o u with
  | Some v => Some (if String.eqb u k then f v else v)
  | None => None
  end.
Proof.
  induction o as [|[k' v'] o IH]; simpl; [reflexivity|].
  destruct (String.eqb k' k) eqn:Ek; simpl;
    destruct (String.eqb k' u) eqn:Eu; auto;
    apply String.eqb_eq in Eu; subst k'; now rewrite Ek.
Qed.

(** *** The ranking pass in closed form *)

Lemma backlink_rank_fold (ps : list PageRecord) url acc :
  fold_left
    (fun rank page => if includes (links page) url then (rank + 10)%Z else rank)
    ps acc
  = (acc + 10 * Z.of_nat
             (length (filter (fun page => includes (links page) url) ps)))%Z.
Proof.
  revert acc. induction ps as [|p ps IH]; intros acc; cbn [fold_left filter].
  - cbn [length]. lia.
  - rewrite IH. destruct (includes (links p) url); cbn [length]; lia.
Qed.

Lemma backlink_rank_referrers idx url :
  backlink_rank idx url = (10 * Z.of_nat (referrers idx url))%Z.
Proof. unfold backlink_rank, referrers. now rewrite backlink_rank_fold. Qed.

(** Rank updates leave every [links] array as it was. *)
Lemma links_values_update idx k r :
  map links (Obj.values (Obj.update idx k (fun p => with_rank p r)))
  = map links (Obj.values idx).
Proof.
  unfold Obj.values, Obj.update. rewrite !map_map. apply map_ext.
  intros [k' v]; simpl. now destruct (String.eqb k' k).
Qed.

Lemma referrers_links idx idx' url :
  map links (Obj.values idx') = map links (Obj.values idx) ->
  referrers idx' url = referrers idx url.
Proof.
  unfold referrers. intros H.
  assert (G : forall ps,
    length (filter (fun page => includes (links page) url) ps)
    = length (filter (fun l => includes l url) (map links ps))).
  { induction ps as [|p ps IH]; simpl; [reflexivity|].
    destruct (includes (links p) url); simpl; now rewrite IH. }
  now rewrite !G, H.
Qed.

Lemma backlink_rank_update idx u r k :
  backlink_rank (Obj.update idx u (fun p => with_rank p r)) k
  = backlink_rank idx k.
Proof.
  rewrite !backlink_rank_referrers. f_equal. f_equal.
  apply referrers_links, links_values_update.
Qed.

Lemma ranked_update urls idx u r :
  ranked urls (Obj.update idx u (fun p => with_rank p r))
              (Obj.update idx u (fun p => with_rank p r))
  = ranked urls idx (Obj.update idx u (fun p => with_rank p r)).
Proof.
  unfold ranked. apply map_ext. intros [k v]. simpl.
  now rewrite backlink_rank_update.
Qed.

Lemma rank_loop_closed urls : forall idx,
  incl urls (Obj.keys idx) ->
  rank_loop urls idx = Some (ranked urls idx idx).
Proof.
  induction urls as [|u urls IH]; intros idx Hin; simpl.
  - unfold ranked. simpl. now rewrite map_id.
  - assert (Hu : In u (Obj.keys idx)) by (apply Hin; now left).
    destruct (get_In_keys idx u Hu) as [p Hp].
    unfold set_rank. rewrite Hp.
    rewrite IH.
    2:{ rewrite keys_update. intros x Hx. apply Hin. now right. }
    f_equal. rewrite ranked_update.
    unfold ranked, Obj.update. rewrite map_map.
    apply map_ext. intros [k v]. unfold includes. simpl.
    destruct (String.eqb k u) eqn:Eku; simpl.
    + apply String.eqb_eq in Eku. subst k.
      now destruct (existsb (String.eqb u) urls).
    + reflexivity.
Qed.

Lemma recalculateRanks_closed idx :
  recalculateRanks idx = Some (ranked (Obj.keys idx) idx idx).
Proof. apply rank_loop_closed. apply incl_refl. Qed.

Lemma get_ranked urls idx0 idx u :
  Obj.get (ranked urls idx0 idx) u =
  match Obj.get idx u with
  | Some p => Some (if includes urls u
                    then with_rank p (backlink_rank idx0 u) else p)
  | None => None
  end.
Proof.
  induction idx as [|[k v] idx IH]; simpl; [reflexivity|].
  destruct (includes urls k) eqn:Ei; simpl;
    destruct (String.eqb k u) eqn:Eu; auto;
    apply String.eqb_eq in Eu; subst; now rewrite Ei.
Qed.

Lemma keys_ranked urls idx0 idx :
  Obj.keys (ranked urls idx0 idx) = Obj.keys idx.
Proof.
  unfold Obj.keys, ranked. rewrite map_map. apply map_ext.
  intros [k v]; simpl. now destruct (includes urls k).
Qed.

Lemma links_ranked urls idx0 idx :
  map links (Obj.values (ranked urls idx0 idx)) = map links (Obj.values idx).
Proof.
  unfold Obj.values, ranked. rewrite !map_map. apply map_ext.
  intros [k v]; simpl. now destruct (includes urls k).
Qed.

(** ** Properties of the rank engine *)

(** C1. [recalculateRanks] always completes; afterwards the index has the
    same URLs, titles and links, and the rank of every URL with a page
    record is 10 times the number of page records whose [links] contain
    it.  Membership does not count repetitions: a page record contributes
    10 to a target it lists, however often it lists it.  On the graph
    P1 -> {P2}, P2 -> {P3}, P3 -> {P2} the ranks come out as 20 for P2,
    10 for P3 and 0 for P1. *)
Theorem recalculateRanks_backlinks :
  (forall idx : Index, exists idx',
      recalculateRanks idx = Some idx' /\
      Obj.keys idx' = Obj.keys idx /\
      forall u p, Obj.get idx u = Some p ->
        exists p', Obj.get idx' u = Some p' /\
          title p' = title p /\ links p' = links p /\
          rank p' = (10 * Z.of_nat (referrers idx u))%Z /\
          rank p' = (10 * Z.of_nat (referrers idx' u))%Z) /\
  (forall (idx : Index) (u : string),
      referrers idx u =
      length (filter (fun page => if in_dec string_dec u (links page)
                                  then true else false) (Obj.values idx))) /\
  (forall (t : string) (l : list string) (r : Z) (u : string) (n : nat),
      backlink_rank [("http://p", mkPage t (u :: repeat u n ++ l) r)] u
      = 10%Z) /\
  (exists idx',
      recalculateRanks three_pages = Some idx' /\
      option_map rank (Obj.get idx' "http://p2") = Some 20%Z /\
      option_map rank (Obj.get idx' "http://p3") = Some 10%Z /\
      option_map rank (Obj.get idx' "http://p1") = Some 0%Z).
Proof.
  split; [|split; [|split]].
  - intros idx. exists (ranked (Obj.keys idx) idx idx).
    split; [apply recalculateRanks_closed|].
    split; [apply keys_ranked|].
    intros u p Hp. rewrite get_ranked, Hp.
    assert (Hk : includes (Obj.keys idx) u = true).
    { apply includes_In. apply get_Some_In in Hp.
      unfold Obj.keys. change u with (fst (u, p)). now apply in_map. }
    rewrite Hk. eexists. split; [reflexivity|].
    cbn [with_rank title links rank]. repeat split.
    + apply backlink_rank_referrers.
    + rewrite backlink_rank_referrers. f_equal. f_equal. symmetry.
      apply referrers_links. apply links_ranked.
  - intros idx u. unfold referrers. f_equal. apply filter_ext.
    intros page. destruct (in_dec string_dec u (links page)) as [H|H].
    + now apply includes_In.
    + destruct (includes (links page) u) eqn:E; [|reflexivity].
      apply includes_In in E. contradiction.
  - intros t l r u n. unfold backlink_rank. simpl.
    unfold includes. simpl. now rewrite String.eqb_refl.
  - eexists. split; [reflexivity|]. repeat split.
Qed.


(** ** Facts about the JSON text *)

Section JSONFacts.

Import JSON.
Local Open Scope string_scope.

Lemma append_assoc (a b c : string) : (a ++ b) ++ c = a ++ (b ++ c).
Proof. induction a as [|x a IH]; simpl; [reflexivity | now rewrite IH]. Qed.

Lemma append_nil_r (a : string) : a ++ EmptyString = a.
Proof. induction a as [|x a IH]; simpl; [reflexivity | now rewrite IH]. Qed.

Lemma length_append (a b : string) :
  String.length (a ++ b) = String.length a + String.length b.
Proof. induction a as [|x a IH]; simpl; [reflexivity | now rewrite IH]. Qed.

(** *** String literals *)

Lemma parse_chars_escape_char (c : ascii) (rest : string) :
  parse_chars (escape_char c ++ rest)
  = prepend (String c EmptyString) (parse_chars rest).
Proof.
  destruct c as [[|] [|] [|] [|] [|] [|] [|] [|]]; reflexivity.
Qed.

Lemma parse_chars_escape (s rest : string) :
  parse_chars (escape s ++ String dquote rest) = Ok s rest.
Proof.
  induction s as [|c s IH]; simpl.
  - reflexivity.
  - rewrite append_assoc, parse_chars_escape_char, IH. reflexivity.
Qed.

Lemma quote_app (s rest : string) :
  quote s ++ rest = String dquote (escape s ++ String dquote rest).
Proof. unfold quote. simpl. now rewrite append_assoc. Qed.

(** *** Numbers *)

(** Arithmetic on the last decimal digit and the rest of a number. *)
Ltac divmod10 n :=
  pose proof (N.div_mod n 10 ltac:(discriminate));
  pose proof (N.mod_lt n 10 ltac:(discriminate));
  generalize dependent (n mod 10)%N;
  generalize dependent (n / 10)%N;
  intros; lia.

Lemma N_of_digit_char (d : N) :
  (d < 10)%N -> N_of_ascii (digit_char d) = (48 + d)%N.
Proof.
  intros H. unfold digit_char. apply N_ascii_embedding. lia.
Qed.

Lemma is_digit_digit_char (d : N) : (d < 10)%N -> is_digit (digit_char d) = true.
Proof.
  intros H. unfold is_digit. rewrite N_of_digit_char by assumption.
  apply andb_true_iff. split; apply N.leb_le; lia.
Qed.

Lemma all_digits_dec_digits f : forall n acc,
  all_digits acc = true -> all_digits (dec_digits f n acc) = true.
Proof.
  induction f as [|f IH]; intros n acc Hacc; simpl; [assumption|].
  assert (Hd : all_digits (String (digit_char (n mod 10)) acc) = true).
  { simpl. rewrite Hacc, is_digit_digit_char; [reflexivity|].
    apply N.mod_lt. lia. }
  destruct (n <? 10)%N; [exact Hd | now apply IH].
Qed.

Lemma dec_digits_S f n acc :
  dec_digits (S f) n acc =
  if (n <? 10)%N then String (digit_char (n mod 10)) acc
  else dec_digits f (n / 10) (String (digit_char (n mod 10)) acc).
Proof. reflexivity. Qed.

Lemma digits_value_dec_digits f : forall n acc,
  (n < 10 ^ N.of_nat (S f))%N ->
  digits_value (dec_digits (S f) n acc) 0 = digits_value acc n.
Proof.
  induction f as [|f IH]; intros n acc Hn.
  - change (10 ^ N.of_nat 1)%N with 10%N in Hn.
    cbn [dec_digits]. apply N.ltb_lt in Hn as Hlt. rewrite Hlt.
    destruct (n <? 10)%N; cbn [digits_value];
      rewrite N_of_digit_char by (apply N.mod_lt; lia);
      rewrite N.mod_small by lia; f_equal; lia.
  - rewrite dec_digits_S.
    destruct (n <? 10)%N eqn:E.
    + cbn [digits_value]. apply N.ltb_lt in E.
      rewrite N_of_digit_char by (apply N.mod_lt; lia).
      rewrite N.mod_small by lia. f_equal. lia.
    + rewrite IH.
      * cbn [digits_value].
        rewrite N_of_digit_char by (apply N.mod_lt; lia).
        f_equal. clear IH. divmod10 n.
      * apply N.Div0.div_lt_upper_bound.
        replace (N.of_nat (S (S f))) with (N.succ (N.of_nat (S f))) in Hn by lia.
        rewrite N.pow_succ_r' in Hn. exact Hn.
Qed.

Lemma dec_digits_head f : forall n acc,
  exists c r, dec_digits (S f) n acc = String c r /\
    is_digit c = true /\
    (n = 0%N -> c = "0"%char /\ r = acc) /\
    (n <> 0%N -> (n < 10 ^ N.of_nat (S f))%N -> c <> "0"%char).
Proof.
  induction f as [|f IH]; intros n acc.
  - cbn [dec_digits].
    exists (digit_char (n mod 10)), acc.
    split; [now destruct (n <? 10)%N|].
    split; [apply is_digit_digit_char, N.mod_lt; lia|].
    split.
    + intros ->. split; reflexivity.
    + change (10 ^ N.of_nat 1)%N with 10%N. intros Hn Hlt.
      rewrite N.mod_small by lia. intros Hc.
      apply (f_equal N_of_ascii) in Hc.
      rewrite N_of_digit_char in Hc by lia. change (N_of_ascii "0"%char) with 48%N in Hc. lia.
  - rewrite dec_digits_S.
    destruct (n <? 10)%N eqn:E.
    + apply N.ltb_lt in E.
      exists (digit_char (n mod 10)), acc.
      split; [reflexivity|].
      split; [apply is_digit_digit_char, N.mod_lt; lia|].
      split.
      * intros ->. split; reflexivity.
      * intros Hn _. rewrite N.mod_small by lia. intros Hc.
        apply (f_equal N_of_ascii) in Hc.
        rewrite N_of_digit_char in Hc by lia. change (N_of_ascii "0"%char) with 48%N in Hc. lia.
    + apply N.ltb_ge in E.
      destruct (IH (n / 10)%N (String (digit_char (n mod 10)) acc))
        as (c & r & Heq & Hdig & _ & Hnz).
      exists c, r. split; [exact Heq|]. split; [exact Hdig|].
      split; [intros ->; simpl in E; lia|].
      intros Hn Hlt. apply Hnz.
      * intros H0. clear IH Hnz Heq. divmod10 n.
      * apply N.Div0.div_lt_upper_bound.
        replace (N.of_nat (S (S f))) with (N.succ (N.of_nat (S f))) in Hlt by lia.
        rewrite N.pow_succ_r' in Hlt. exact Hlt.
Qed.

Lemma N_lt_pow10_log2 (n : N) : (n < 10 ^ N.of_nat (S (N.to_nat (N.log2 n))))%N.
Proof.
  replace (N.of_nat (S (N.to_nat (N.log2 n)))) with (N.succ (N.log2 n)) by lia.
  destruct (N.eq_dec n 0) as [->|Hn].
  - reflexivity.
  - apply N.lt_le_trans with (2 ^ N.succ (N.log2 n))%N.
    + apply N.log2_spec. lia.
    + apply N.pow_le_mono_l. lia.
Qed.

Lemma terminated_cases (rest : string) :
  terminated rest ->
  span_digits rest = (EmptyString, rest) /\
  parse_frac rest = Ok EmptyString rest /\
  parse_exp rest = Ok None rest.
Proof.
  intros [-> | [r [-> | ->]]]; repeat split.
Qed.

Lemma span_digits_app (ds rest : string) :
  all_digits ds = true -> terminated rest ->
  span_digits (ds ++ rest) = (ds, rest).
Proof.
  intros Hds Hrest. induction ds as [|c ds IH]; simpl.
  - now apply terminated_cases.
  - simpl in Hds. apply andb_true_iff in Hds as [Hc Hds].
    rewrite Hc, IH by assumption. reflexivity.
Qed.

Lemma digit_not_minus (c : ascii) :
  is_digit c = true -> Ascii.eqb c "-" = false.
Proof.
  destruct c as [[|] [|] [|] [|] [|] [|] [|] [|]];
    intros H; try reflexivity; discriminate H.
Qed.

Lemma make_number_int (neg : bool) (ds : string) :
  make_number neg ds EmptyString None
  = Int (if neg then - Z.of_N (digits_value ds 0)
         else Z.of_N (digits_value ds 0)).
Proof.
  unfold make_number. rewrite append_nil_r. cbn.
  now rewrite Z.mul_1_r.
Qed.

(** Reading back the digits written for a natural number. *)
Lemma parse_digits_N_to_string (n : N) (rest : string) :
  terminated rest ->
  exists d more,
    N_to_string n = String d more /\
    Ascii.eqb d "-" = false /\
    span_digits (N_to_string n ++ rest) = (String d more, rest) /\
    (Ascii.eqb d "0" && negb (String.eqb more EmptyString) = false) /\
    digits_value (String d more) 0 = n.
Proof.
  intros Hrest. unfold N_to_string.
  set (f := N.to_nat (N.log2 n)).
  pose proof (N_lt_pow10_log2 n) as Hlt. fold f in Hlt.
  destruct (dec_digits_head f n EmptyString) as (d & more & Heq & Hdig & Hz & Hnz).
  exists d, more. split; [exact Heq|].
  split; [now apply digit_not_minus|].
  split.
  { rewrite <- Heq. apply span_digits_app; [|assumption].
    now apply all_digits_dec_digits. }
  split.
  { destruct (N.eq_dec n 0) as [E|E].
    - destruct (Hz E) as [-> ->]. reflexivity.
    - specialize (Hnz E Hlt). apply Ascii.eqb_neq in Hnz. now rewrite Hnz. }
  rewrite <- Heq. now apply digits_value_dec_digits.
Qed.

Lemma parse_number_to_string (z : Z) (rest : string) :
  terminated rest ->
  parse_number (number_to_string z ++ rest) = Ok (JNum (Int z)) rest.
Proof.
  intros Hrest. unfold number_to_string.
  destruct (parse_digits_N_to_string (Z.abs_N z) rest Hrest)
    as (d & more & Heq & Hminus & Hspan & Hzero & Hval).
  destruct (z <? 0)%Z eqn:Ez.
  - apply Z.ltb_lt in Ez.
    cbn [append]. unfold parse_number.
    change (Ascii.eqb "-" "-") with true. cbv iota beta.
    rewrite Hspan, Hzero.
    destruct (terminated_cases rest Hrest) as (_ & Hf & He).
    rewrite Hf. cbn [bind]. rewrite He. cbn [bind].
    rewrite make_number_int, Hval. do 2 f_equal. f_equal. lia.
  - apply Z.ltb_ge in Ez.
    unfold parse_number. rewrite Heq at 1. cbn [append].
    rewrite Hminus. cbv iota beta.
    rewrite Hspan, Hzero.
    destruct (terminated_cases rest Hrest) as (_ & Hf & He).
    rewrite Hf. cbn [bind]. rewrite He. cbn [bind].
    rewrite make_number_int, Hval. do 2 f_equal. f_equal. lia.
Qed.

(** *** White space and separators *)

Lemma skip_ws_app (w s : string) :
  all_ws w = true -> skip_ws (w ++ s) = skip_ws s.
Proof.
  induction w as [|c w IH]; simpl; [reflexivity|].
  intros H. apply andb_true_iff in H as [Hc Hw]. rewrite Hc. auto.
Qed.

Lemma all_ws_app (a b : string) :
  all_ws a = true -> all_ws b = true -> all_ws (a ++ b) = true.
Proof.
  induction a as [|c a IH]; simpl; [auto|].
  intros H Hb. apply andb_true_iff in H as [Hc Ha]. rewrite Hc. auto.
Qed.

Lemma skip_ws_line (indent s : string) :
  all_ws indent = true -> skip_ws (String LF (indent ++ s)) = skip_ws s.
Proof. intros H. cbn. now apply skip_ws_app. Qed.

Lemma continue_more (closing : ascii) {A} (r : string)
    (more done : string -> result A) :
  continue closing (String "," r) more done = more r.
Proof. reflexivity. Qed.

Lemma continue_done (closing : ascii) {A} (sb r : string)
    (more done : string -> result A) :
  all_ws sb = true -> is_ws closing = false ->
  Ascii.eqb closing "," = false ->
  continue closing (String LF (sb ++ String closing r)) more done = done r.
Proof.
  intros Hsb Hc Hcomma. unfold continue.
  rewrite skip_ws_line by assumption. cbn [skip_ws]. rewrite Hc, Hcomma.
  now rewrite Ascii.eqb_refl.
Qed.

(** *** One step of each parser *)

Lemma parse_value_S f (s : string) :
  parse_value (S f) s =
  match skip_ws s with
  | EmptyString => SyntaxError
  | String c r =>
      if Ascii.eqb c "[" then
        match skip_ws r with
        | EmptyString => SyntaxError
        | String c' r' =>
            if Ascii.eqb c' "]" then Ok (JArr []) r'
            else parse_elements f r []
        end
      else if Ascii.eqb c "{" then
        match skip_ws r with
        | EmptyString => SyntaxError
        | String c' r' =>
            if Ascii.eqb c' "}" then Ok (JObj []) r'
            else parse_members f r []
        end
      else parse_scalar (String c r)
  end.
Proof. reflexivity. Qed.

Lemma parse_elements_S f (s : string) (acc : list value) :
  parse_elements (S f) s acc =
  bind (parse_value f s) (fun v r =>
  continue "]" r
    (fun r' => parse_elements f r' (acc ++ [v]))
    (fun r' => Ok (JArr (acc ++ [v])) r')).
Proof. reflexivity. Qed.

Lemma parse_members_S f (s : string) (acc : list (string * value)) :
  parse_members (S f) s acc =
  expect dquote s (fun r0 =>
  bind (parse_chars r0) (fun k r1 =>
  expect ":" r1 (fun r2 =>
  bind (parse_value f r2) (fun v r3 =>
  continue "}" r3
    (fun r' => parse_members f r' (Obj.set acc k v))
    (fun r' => Ok (JObj (Obj.set acc k v)) r'))))).
Proof. reflexivity. Qed.

(** *** Scalars *)

Lemma parse_value_string f (s x tail : string) :
  skip_ws s = quote x ++ tail -> 1 <= f ->
  parse_value f s = Ok (JStr x) tail.
Proof.
  intros H Hf. destruct f as [|f]; [lia|].
  rewrite parse_value_S, H, quote_app.
  change (Ascii.eqb dquote "[") with false.
  change (Ascii.eqb dquote "{") with false.
  cbv iota. unfold parse_scalar. rewrite Ascii.eqb_refl.
  now rewrite parse_chars_escape.
Qed.

Lemma number_dispatch (c : ascii) (r : string) :
  is_digit c = true \/ c = "-"%char ->
  Ascii.eqb c "[" = false /\ Ascii.eqb c "{" = false /\
  is_ws c = false /\
  parse_scalar (String c r) = parse_number (String c r).
Proof.
  intros [H | ->]; [|now repeat split].
  destruct c as [[|] [|] [|] [|] [|] [|] [|] [|]];
    try discriminate H; now repeat split.
Qed.

Lemma number_to_string_head (z : Z) :
  exists c r, number_to_string z = String c r /\
              (is_digit c = true \/ c = "-"%char).
Proof.
  unfold number_to_string. destruct (z <? 0)%Z.
  - eexists _, _. split; [reflexivity | now right].
  - unfold N_to_string.
    destruct (dec_digits_head (N.to_nat (N.log2 (Z.abs_N z))) (Z.abs_N z)
                EmptyString) as (c & r & Heq & Hd & _).
    exists c, r. split; [exact Heq | now left].
Qed.

Lemma parse_value_number f (s : string) (z : Z) (tail : string) :
  skip_ws s = number_to_string z ++ tail -> terminated tail -> 1 <= f ->
  parse_value f s = Ok (JNum (Int z)) tail.
Proof.
  intros H Ht Hf. destruct f as [|f]; [lia|].
  rewrite parse_value_S, H.
  destruct (number_to_string_head z) as (c & r & Heq & Hc).
  destruct (number_dispatch c (r ++ tail) Hc) as (H1 & H2 & _ & H3).
  rewrite Heq. cbn [append]. rewrite H1, H2, H3.
  change (String c (r ++ tail)) with (String c r ++ tail).
  rewrite <- Heq. now apply parse_number_to_string.
Qed.

(** *** Blocks: arrays and objects, one member per line *)

Lemma block_cons_app (o c : ascii) (sb x : string) (l : list string)
    (tail : string) :
  block o c sb (x :: l) ++ tail
  = String o (String LF
      ((sb ++ gap) ++ String.concat (separator (sb ++ gap)) (x :: l)
       ++ String LF (sb ++ String c tail))).
Proof.
  unfold block, separator. cbn [append].
  rewrite !append_assoc. cbn [append]. do 3 f_equal.
  now rewrite !append_assoc.
Qed.

Lemma concat_cons2 (sep a b : string) (l : list string) (tail : string) :
  String.concat sep (a :: b :: l) ++ tail
  = a ++ sep ++ String.concat sep (b :: l) ++ tail.
Proof. cbn [String.concat]. now rewrite !append_assoc. Qed.

Lemma concat_one (sep a : string) : String.concat sep [a] = a.
Proof. reflexivity. Qed.

Lemma skip_ws_quote (x tail : string) :
  skip_ws (quote x ++ tail) = quote x ++ tail.
Proof. now rewrite quote_app. Qed.

Lemma concat_head (sep a : string) (l : list string) (tail : string) :
  exists t, String.concat sep (a :: l) ++ tail = a ++ t.
Proof.
  destruct l as [|b l].
  - exists tail. reflexivity.
  - eexists. apply concat_cons2.
Qed.

Lemma member_app (k v rest : string) :
  member k v ++ rest = quote k ++ String ":" (String " " (v ++ rest)).
Proof. unfold member. now rewrite append_assoc. Qed.

(** *** Arrays of strings *)

Lemma parse_elements_strings (indent sb tail : string) :
  all_ws indent = true -> all_ws sb = true ->
  forall (l : list string) (x : string) (f : nat) (s : string)
         (acc : list value),
    skip_ws s = String.concat (separator indent) (map quote (x :: l))
                ++ String LF (sb ++ String "]" tail) ->
    List.length l + 2 <= f ->
    parse_elements f s acc = Ok (JArr (acc ++ map JStr (x :: l))) tail.
Proof.
  intros Hi Hsb. induction l as [|y l IH]; intros x f s acc Hs Hf.
  - destruct f as [|f]; [simpl in Hf; lia|].
    rewrite parse_elements_S. cbn [map] in Hs. rewrite concat_one in Hs.
    rewrite (parse_value_string f s x _ Hs) by (simpl in Hf; lia).
    cbn [bind]. now rewrite continue_done.
  - destruct f as [|f]; [simpl in Hf; lia|].
    rewrite parse_elements_S. cbn [map] in Hs. rewrite concat_cons2 in Hs.
    rewrite (parse_value_string f s x _ Hs) by (simpl in Hf; lia).
    cbn [bind]. unfold separator at 1. cbn [append]. rewrite continue_more.
    rewrite (IH y f _ (acc ++ [JStr x])%list).
    + now rewrite <- app_assoc.
    + rewrite skip_ws_line by assumption.
      destruct (concat_head (separator indent) (quote y) (map quote l)
                  (String LF (sb ++ String "]" tail))) as [t Ht].
      cbn [map]. rewrite Ht. apply skip_ws_quote.
    + simpl in Hf. lia.
Qed.

Lemma parse_value_array f (sb s tail : string) (l : list string) :
  all_ws sb = true ->
  skip_ws s = stringify_array sb l ++ tail ->
  List.length l + 2 <= f ->
  parse_value f s = Ok (JArr (map JStr l)) tail.
Proof.
  intros Hsb Hs Hf. destruct f as [|f]; [lia|].
  rewrite parse_value_S, Hs. unfold stringify_array.
  destruct l as [|x l].
  - reflexivity.
  - cbn [map]. rewrite block_cons_app.
    change (Ascii.eqb "[" "[") with true. cbv iota.
    assert (Hi : all_ws (sb ++ gap) = true) by (now apply all_ws_app).
    rewrite skip_ws_line by assumption.
    destruct (concat_head (separator (sb ++ gap)) (quote x) (map quote l)
                (String LF (sb ++ String "]" tail))) as [t Ht].
    rewrite Ht, skip_ws_quote, quote_app.
    change (Ascii.eqb dquote "]") with false. cbv iota.
    rewrite <- quote_app, <- Ht.
    apply (parse_elements_strings (sb ++ gap) sb tail Hi Hsb l x f _ []).
    + rewrite skip_ws_line by assumption.
      change (quote x :: map quote l) with (map quote (x :: l)).
      destruct (concat_head (separator (sb ++ gap)) (quote x) (map quote l)
                (String LF (sb ++ String "]" tail))) as [t' Ht'].
      cbn [map]. rewrite Ht'. apply skip_ws_quote.
    + simpl in Hf. lia.
Qed.

(** *** Objects *)

Lemma parse_members_step f (s : string) (acc : list (string * value))
    (k r2 : string) (v : value) (r3 : string) :
  skip_ws s = quote k ++ String ":" r2 ->
  parse_value f r2 = Ok v r3 ->
  parse_members (S f) s acc =
  continue "}" r3
    (fun r' => parse_members f r' (Obj.set acc k v))
    (fun r' => Ok (JObj (Obj.set acc k v)) r').
Proof.
  intros Hs Hv. rewrite parse_members_S. unfold expect at 1.
  rewrite Hs, quote_app, Ascii.eqb_refl, parse_chars_escape.
  cbn [bind]. unfold expect. cbn [skip_ws].
  change (is_ws ":") with false. cbv iota.
  rewrite Ascii.eqb_refl, Hv. reflexivity.
Qed.

Lemma skip_ws_member (indent k v rest : string) :
  all_ws indent = true ->
  skip_ws (String LF (indent ++ member k v ++ rest))
  = quote k ++ String ":" (String " " (v ++ rest)).
Proof.
  intros H. rewrite skip_ws_line by assumption.
  rewrite member_app. apply skip_ws_quote.
Qed.

Lemma stringify_record_app (sb : string) (p : PageRecord) (tail : string) :
  stringify_record sb p ++ tail
  = String "{" (String LF ((sb ++ gap)
      ++ member "title" (quote (title p))
      ++ String "," (String LF ((sb ++ gap)
      ++ member "links" (stringify_array (sb ++ gap) (links p))
      ++ String "," (String LF ((sb ++ gap)
      ++ member "rank" (number_to_string (rank p))
      ++ String LF (sb ++ String "}" tail))))))).
Proof.
  unfold stringify_record. rewrite block_cons_app.
  rewrite !concat_cons2, concat_one. unfold separator. cbn [append].
  reflexivity.
Qed.

Lemma parse_value_record f (sb s tail : string) (p : PageRecord) :
  all_ws sb = true ->
  skip_ws s = stringify_record sb p ++ tail ->
  List.length (links p) + 5 <= f ->
  parse_value f s = Ok (value_of_record p) tail.
Proof.
  intros Hsb Hs Hf.
  assert (Hi : all_ws (sb ++ gap) = true) by (now apply all_ws_app).
  destruct f as [|[|[|[|f]]]]; try lia.
  rewrite parse_value_S, Hs, stringify_record_app.
  change (Ascii.eqb "{" "[") with false.
  change (Ascii.eqb "{" "{") with true. cbv iota.
  rewrite skip_ws_member by assumption. rewrite quote_app.
  change (Ascii.eqb dquote "}") with false. cbv iota.
  (* title *)
  erewrite parse_members_step.
  2:{ apply skip_ws_member. assumption. }
  2:{ apply parse_value_string; [|lia]. cbn [skip_ws].
      change (is_ws " ") with true. cbv iota. apply skip_ws_quote. }
  rewrite continue_more.
  (* links *)
  erewrite parse_members_step.
  2:{ apply skip_ws_member. assumption. }
  2:{ apply (parse_value_array _ (sb ++ gap) _ _ (links p));
        [assumption| |lia].
      cbn [skip_ws]. change (is_ws " ") with true. cbv iota.
      unfold stringify_array.
      destruct (links p) as [|x l]; [reflexivity|].
      cbn [map]. now rewrite block_cons_app. }
  rewrite continue_more.
  (* rank *)
  erewrite parse_members_step.
  2:{ apply skip_ws_member. assumption. }
  2:{ apply (parse_value_number _ _ (rank p)
               (String LF (sb ++ String "}" tail))); [| |lia].
      - cbn [skip_ws]. change (is_ws " ") with true. cbv iota.
        destruct (number_to_string_head (rank p)) as (c & r & Heq & Hc).
        destruct (number_dispatch c (r ++ String LF (sb ++ String "}" tail)) Hc)
          as (_ & _ & Hws & _).
        rewrite Heq. cbn [append skip_ws]. now rewrite Hws.
      - right. eexists. right. reflexivity. }
  rewrite continue_done by (assumption || reflexivity).
  reflexivity.
Qed.

(** *** The whole index *)

Lemma set_fresh {A} (o : list (string * A)) (k : string) (v : A) :
  ~ In k (Obj.keys o) -> Obj.set o k v = (o ++ [(k, v)])%list.
Proof.
  induction o as [|[k' v'] o IH]; simpl; [reflexivity|].
  intros H. destruct (String.eqb k' k) eqn:E.
  - apply String.eqb_eq in E. tauto.
  - rewrite IH by tauto. reflexivity.
Qed.

Lemma parse_members_records (tail : string) :
  forall (l : list (string * PageRecord)) (kv : string * PageRecord)
         (f : nat) (s : string) (acc : list (string * value)),
    skip_ws s = String.concat (separator gap) (map index_member (kv :: l))
                ++ String LF (String "}" tail) ->
    NoDup (Obj.keys acc ++ Obj.keys (kv :: l)) ->
    (forall e, In e (kv :: l) ->
       List.length (links (snd e)) + List.length l + 6 <= f) ->
    parse_members f s acc
    = Ok (JObj (acc ++ map entry_value (kv :: l))) tail.
Proof.
  induction l as [|kv2 l IH]; intros [k p] f s acc Hs Hnd Hf.
  - specialize (Hf (k, p) (or_introl eq_refl)). cbn [snd] in Hf.
    destruct f as [|f]; [lia|].
    cbn [map] in Hs. rewrite concat_one in Hs.
    unfold index_member in Hs. cbn [fst snd] in Hs. rewrite member_app in Hs.
    erewrite parse_members_step; [|exact Hs|].
    2:{ apply (parse_value_record _ gap _ _ p); [reflexivity| |simpl in Hf; lia].
        reflexivity. }
    change (String LF (String "}" tail))
      with (String LF (EmptyString ++ String "}" tail)).
    rewrite continue_done by reflexivity.
    rewrite set_fresh.
    + reflexivity.
    + intros Hin. apply NoDup_remove_2 in Hnd. apply Hnd.
      simpl. rewrite app_nil_r. exact Hin.
  - pose proof (Hf (k, p) (or_introl eq_refl)) as Hfp. cbn [snd] in Hfp.
    destruct f as [|f]; [lia|].
    cbn [map] in Hs. rewrite concat_cons2 in Hs.
    unfold index_member at 1 in Hs. cbn [fst snd] in Hs.
    rewrite member_app in Hs.
    erewrite parse_members_step; [|exact Hs|].
    2:{ apply (parse_value_record _ gap _ _ p); [reflexivity| |simpl in Hfp; lia].
        reflexivity. }
    unfold separator at 1. cbn [append]. rewrite continue_more.
    assert (Hk : ~ In k (Obj.keys acc)).
    { intros Hin. apply NoDup_remove_2 in Hnd. apply Hnd.
      apply in_or_app. now left. }
    rewrite set_fresh by assumption.
    rewrite (IH kv2 f _ (acc ++ [(k, value_of_record p)])%list).
    + rewrite <- app_assoc. reflexivity.
    + rewrite skip_ws_line by reflexivity.
      destruct (concat_head (separator gap) (index_member kv2)
                  (map index_member l) (String LF (String "}" tail)))
        as [t Ht].
      cbn [map]. rewrite Ht. unfold index_member.
      rewrite member_app. apply skip_ws_quote.
    + unfold Obj.keys in *. rewrite map_app. cbn [map fst].
      rewrite <- app_assoc. cbn [app].
      cbn [map fst] in Hnd. exact Hnd.
    + intros e He. specialize (Hf e (or_intror He)). simpl in Hf |- *. lia.
Qed.

(** *** More fuel never changes an answer *)

Lemma fuel_le_refl {A} (r : result A) : fuel_le r r.
Proof. now right. Qed.

Lemma bind_mono {A B} (r r' : result A) (k k' : A -> string -> result B) :
  fuel_le r r' -> (forall a rest, fuel_le (k a rest) (k' a rest)) ->
  fuel_le (bind r k) (bind r' k').
Proof.
  intros [-> | ->] Hk; [now left|].
  destruct r'; simpl; [apply Hk | now right | now left].
Qed.

Lemma expect_mono (c : ascii) {A} (s : string) (k k' : string -> result A) :
  (forall r, fuel_le (k r) (k' r)) ->
  fuel_le (expect c s k) (expect c s k').
Proof.
  intros Hk. unfold expect. destruct (skip_ws s) as [|c' r]; [now right|].
  destruct (Ascii.eqb c' c); [apply Hk | now right].
Qed.

Lemma continue_mono (c : ascii) {A} (s : string)
    (more more' done done' : string -> result A) :
  (forall r, fuel_le (more r) (more' r)) ->
  (forall r, fuel_le (done r) (done' r)) ->
  fuel_le (continue c s more done) (continue c s more' done').
Proof.
  intros Hm Hd. unfold continue. destruct (skip_ws s) as [|c' r]; [now right|].
  destruct (Ascii.eqb c' ","); [apply Hm|].
  destruct (Ascii.eqb c' c); [apply Hd | now right].
Qed.

Lemma parse_fuel_mono (f : nat) : forall f', f <= f' ->
  (forall s, fuel_le (parse_value f s) (parse_value f' s)) /\
  (forall s acc, fuel_le (parse_elements f s acc) (parse_elements f' s acc)) /\
  (forall s acc, fuel_le (parse_members f s acc) (parse_members f' s acc)).
Proof.
  induction f as [|f IH]; intros f' Hle.
  - repeat split; intros; now left.
  - destruct f' as [|f']; [lia|].
    destruct (IH f' ltac:(lia)) as (IHv & IHe & IHm).
    repeat split.
    + intros s. rewrite !parse_value_S.
      destruct (skip_ws s) as [|c r]; [now right|].
      destruct (Ascii.eqb c "[").
      { destruct (skip_ws r) as [|c' r']; [now right|].
        destruct (Ascii.eqb c' "]"); [now right | apply IHe]. }
      destruct (Ascii.eqb c "{"); [|now right].
      destruct (skip_ws r) as [|c' r']; [now right|].
      destruct (Ascii.eqb c' "}"); [now right | apply IHm].
    + intros s acc. rewrite !parse_elements_S.
      apply bind_mono; [apply IHv|]. intros v r.
      apply continue_mono; intros r'; [apply IHe | now right].
    + intros s acc. rewrite !parse_members_S.
      apply expect_mono. intros r0.
      apply bind_mono; [apply fuel_le_refl|]. intros k r1.
      apply expect_mono. intros r2.
      apply bind_mono; [apply IHv|]. intros v r3.
      apply continue_mono; intros r'; [apply IHm | now right].
Qed.

(** *** The parser consumes text and never needs more fuel than it gets *)

Lemma good_syntax_error {A} (s : string) : good s (@SyntaxError A).
Proof. split; [discriminate | exact I]. Qed.

Lemma good_ok {A} (s : string) (a : A) (r : string) :
  String.length r < String.length s -> good s (Ok a r).
Proof. intros H. split; [discriminate | exact H]. Qed.

Lemma good_weaken {A} (s s' : string) (res : result A) :
  good s res -> String.length s <= String.length s' -> good s' res.
Proof.
  intros [H1 H2] Hle. split; [exact H1|].
  destruct res; simpl in *; auto; lia.
Qed.

Lemma good_prepend (s : string) (p : string) (res : result string) :
  good s res -> good s (prepend p res).
Proof.
  intros [H1 H2]. destruct res as [a r| |]; cbn [prepend bind].
  - now apply good_ok.
  - apply good_syntax_error.
  - contradiction.
Qed.

Lemma parse_chars_good (n : nat) : forall s,
  String.length s <= n -> good s (parse_chars s).
Proof.
  induction n as [|n IH]; intros s Hn.
  - destruct s; [apply good_syntax_error | simpl in Hn; lia].
  - assert (Hrec : forall t, String.length t < String.length s ->
                             forall p, good s (prepend p (parse_chars t))).
    { intros t Ht p. apply good_prepend.
      apply good_weaken with (s := t); [apply IH; lia | lia]. }
    destruct s as [|c r]; [apply good_syntax_error|].
    cbn [parse_chars].
    destruct (Ascii.eqb c dquote); [apply good_ok; simpl; lia|].
    destruct (Ascii.eqb c backslash).
    2:{ destruct (N_of_ascii c <? 32)%N; [apply good_syntax_error|].
        apply Hrec. simpl. lia. }
    destruct r as [|e r1]; [apply good_syntax_error|].
    repeat match goal with
           | |- good _ (if Ascii.eqb e ?x then _ else _) =>
               destruct (Ascii.eqb e x); [apply Hrec; simpl; lia|]
           end.
    destruct (Ascii.eqb e "u"); [|apply good_syntax_error].
    destruct r1 as [|h1 [|h2 [|h3 [|h4 r2]]]]; try apply good_syntax_error.
    destruct (hex4 h1 h2 h3 h4) as [k|]; [|apply good_syntax_error].
    destruct (is_high_surrogate k); [|apply Hrec; simpl; lia].
    destruct r2 as [|b [|u [|g1 [|g2 [|g3 [|g4 r3]]]]]];
      try (apply Hrec; simpl; lia).
    destruct (low_escape _) as [[m ?]|]; apply Hrec; simpl; lia.
Qed.

Lemma skip_ws_length (s : string) :
  String.length (skip_ws s) <= String.length s.
Proof.
  induction s as [|c s IH]; simpl; [lia|].
  destruct (is_ws c); simpl; lia.
Qed.

Lemma span_digits_length (s : string) : forall ds r,
  span_digits s = (ds, r) ->
  String.length s = String.length ds + String.length r.
Proof.
  induction s as [|c s IH]; simpl; intros ds r H.
  - injection H as <- <-. reflexivity.
  - destruct (is_digit c).
    + destruct (span_digits s) as [ds' r'] eqn:E.
      injection H as <- <-. simpl. now rewrite (IH ds' r').
    + injection H as <- <-. reflexivity.
Qed.

Lemma parse_frac_weak (s : string) :
  parse_frac s <> OutOfFuel /\
  forall fs r, parse_frac s = Ok fs r -> String.length r <= String.length s.
Proof.
  unfold parse_frac. destruct s as [|c s].
  - split; [discriminate|]. intros fs r [= <- <-]. lia.
  - destruct (Ascii.eqb c ".").
    + destruct (span_digits s) as [fs' r'] eqn:E.
      apply span_digits_length in E.
      destruct fs'; split; try discriminate.
      intros fs r [= <- <-]. simpl in *. lia.
    + split; [discriminate|]. intros fs r [= <- <-]. lia.
Qed.

Lemma parse_exp_weak (s : string) :
  parse_exp s <> OutOfFuel /\
  forall ex r, parse_exp s = Ok ex r -> String.length r <= String.length s.
Proof.
  unfold parse_exp. destruct s as [|c s].
  - split; [discriminate|]. intros fs r [= <- <-]. lia.
  - destruct (Ascii.eqb c "e" || Ascii.eqb c "E").
    + assert (H : forall r1, String.length r1 <= String.length s ->
        (let (es, rest) := span_digits r1 in
         match es with
         | EmptyString => SyntaxError
         | String _ _ => Ok (Some (true, es)) rest
         end) <> @OutOfFuel (option (bool * string)) /\
        forall (b : bool) ex r,
          (let (es, rest) := span_digits r1 in
           match es with
           | EmptyString => SyntaxError
           | String _ _ => Ok (Some (b, es)) rest
           end) = Ok ex r -> String.length r <= String.length (String c s)).
      { intros r1 Hr1. destruct (span_digits r1) as [es rest] eqn:E.
        apply span_digits_length in E.
        destruct es; split; try discriminate.
        intros b ex r [= <- <-]. simpl in *. lia. }
      destruct s as [|sg r'].
      * destruct (H EmptyString (le_n _)) as [H1 H2]. split.
        -- simpl. discriminate.
        -- simpl. discriminate.
      * destruct (Ascii.eqb sg "-").
        { destruct (H r' ltac:(simpl; lia)) as [H1 H2]. split.
          - destruct (span_digits r') as [[|] ?]; discriminate.
          - apply H2. }
        destruct (Ascii.eqb sg "+").
        { destruct (H r' ltac:(simpl; lia)) as [H1 H2]. split.
          - destruct (span_digits r') as [[|] ?]; discriminate.
          - apply H2. }
        destruct (H (String sg r') (le_n _)) as [H1 H2]. split.
        -- destruct (span_digits (String sg r')) as [[|] ?]; discriminate.
        -- apply H2.
    + split; [discriminate|]. intros fs r [= <- <-]. lia.
Qed.

Lemma parse_number_good (s : string) : good s (parse_number s).
Proof.
  unfold parse_number.
  set (ns := match s with
             | String c r => if Ascii.eqb c "-" then (true, r) else (false, s)
             | EmptyString => (false, s)
             end).
  assert (Hns : String.length (snd ns) <= String.length s).
  { subst ns. destruct s as [|c r]; [simpl; lia|].
    destruct (Ascii.eqb c "-"); simpl; lia. }
  destruct ns as [neg s1]. cbn [snd] in Hns.
  destruct (span_digits s1) as [ds s2] eqn:E.
  apply span_digits_length in E.
  destruct ds as [|d more]; [apply good_syntax_error|].
  destruct (Ascii.eqb d "0" && negb (String.eqb more EmptyString));
    [apply good_syntax_error|].
  destruct (parse_frac_weak s2) as [Hf1 Hf2].
  destruct (parse_frac s2) as [fs s3| |]; cbn [bind];
    [|apply good_syntax_error|contradiction].
  specialize (Hf2 fs s3 eq_refl).
  destruct (parse_exp_weak s3) as [He1 He2].
  destruct (parse_exp s3) as [ex s4| |]; cbn [bind];
    [|apply good_syntax_error|contradiction].
  specialize (He2 ex s4 eq_refl).
  apply good_ok. simpl in E. lia.
Qed.

Lemma strip_prefix_length (lit : string) : forall s rest,
  strip_prefix lit s = Some rest ->
  String.length s = String.length lit + String.length rest.
Proof.
  induction lit as [|a lit IH]; intros s rest H; simpl in H.
  - injection H as <-. reflexivity.
  - destruct s as [|b s]; [discriminate|].
    destruct (Ascii.eqb a b); [|discriminate].
    simpl. now rewrite (IH s rest H).
Qed.

Lemma parse_literal_good (lit : string) (v : value) (s : string) :
  0 < String.length lit -> good s (parse_literal lit v s).
Proof.
  intros Hl. unfold parse_literal.
  destruct (strip_prefix lit s) as [rest|] eqn:E; [|apply good_syntax_error].
  apply strip_prefix_length in E. apply good_ok. lia.
Qed.

Lemma parse_scalar_good (s : string) : good s (parse_scalar s).
Proof.
  unfold parse_scalar. destruct s as [|c r]; [apply good_syntax_error|].
  destruct (Ascii.eqb c dquote).
  { destruct (parse_chars_good (String.length r) r (le_n _)) as [H1 H2].
    destruct (parse_chars r); cbn [bind];
      [apply good_ok; simpl in *; lia | apply good_syntax_error | contradiction]. }
  destruct (Ascii.eqb c "t"); [apply parse_literal_good; simpl; lia|].
  destruct (Ascii.eqb c "f"); [apply parse_literal_good; simpl; lia|].
  destruct (Ascii.eqb c "n"); [apply parse_literal_good; simpl; lia|].
  apply parse_number_good.
Qed.

Lemma shrinks_weaken {A} (s s' : string) (res : result A) :
  shrinks s res -> String.length s <= String.length s' -> shrinks s' res.
Proof. destruct res; simpl; auto; lia. Qed.

Lemma skip_ws_tail (s : string) (c : ascii) (r : string) :
  skip_ws s = String c r -> String.length r < String.length s.
Proof.
  intros H. pose proof (skip_ws_length s) as Hl. rewrite H in Hl.
  simpl in Hl. lia.
Qed.

Lemma expect_case (c : ascii) {A} (s : string) (k : string -> result A)
    (P : result A -> Prop) :
  P SyntaxError ->
  (forall r, String.length r < String.length s -> P (k r)) ->
  P (expect c s k).
Proof.
  intros He Hk. unfold expect.
  destruct (skip_ws s) as [|c' r] eqn:E; [exact He|].
  destruct (Ascii.eqb c' c); [|exact He].
  apply Hk. now apply skip_ws_tail in E.
Qed.

Lemma continue_case (c : ascii) {A} (s : string)
    (more done : string -> result A) (P : result A -> Prop) :
  P SyntaxError ->
  (forall r, String.length r < String.length s -> P (more r)) ->
  (forall r, String.length r < String.length s -> P (done r)) ->
  P (continue c s more done).
Proof.
  intros He Hm Hd. unfold continue.
  destruct (skip_ws s) as [|c' r] eqn:E; [exact He|].
  apply skip_ws_tail in E.
  destruct (Ascii.eqb c' ","); [now apply Hm|].
  destruct (Ascii.eqb c' c); [now apply Hd | exact He].
Qed.

Lemma parse_shrinks (f : nat) :
  (forall s, shrinks s (parse_value f s)) /\
  (forall s acc, shrinks s (parse_elements f s acc)) /\
  (forall s acc, shrinks s (parse_members f s acc)).
Proof.
  induction f as [|f (IHv & IHe & IHm)]; [repeat split; intros; exact I|].
  repeat split.
  - intros s. rewrite parse_value_S.
    destruct (skip_ws s) as [|c r] eqn:E; [exact I|].
    pose proof (skip_ws_length s) as Hl. rewrite E in Hl. simpl in Hl.
    destruct (Ascii.eqb c "[").
    { destruct (skip_ws r) as [|c' r'] eqn:E'; [exact I|].
      apply skip_ws_tail in E'.
      destruct (Ascii.eqb c' "]"); [simpl; lia|].
      apply shrinks_weaken with (s := r); [apply IHe | lia]. }
    destruct (Ascii.eqb c "{").
    { destruct (skip_ws r) as [|c' r'] eqn:E'; [exact I|].
      apply skip_ws_tail in E'.
      destruct (Ascii.eqb c' "}"); [simpl; lia|].
      apply shrinks_weaken with (s := r); [apply IHm | lia]. }
    apply shrinks_weaken with (s := String c r);
      [apply parse_scalar_good | simpl; lia].
  - intros s acc. rewrite parse_elements_S.
    pose proof (IHv s) as Hv.
    destruct (parse_value f s) as [v r| |]; cbn [bind]; try exact I.
    simpl in Hv.
    apply continue_case; [exact I| |].
    + intros r' Hr'. apply shrinks_weaken with (s := r'); [apply IHe | lia].
    + intros r' Hr'. simpl. lia.
  - intros s acc. rewrite parse_members_S.
    apply expect_case; [exact I|]. intros r0 Hr0.
    destruct (parse_chars_good (String.length r0) r0 (le_n _)) as [_ Hc].
    destruct (parse_chars r0) as [k r1| |]; cbn [bind]; try exact I.
    simpl in Hc.
    apply expect_case; [exact I|]. intros r2 Hr2.
    pose proof (IHv r2) as Hv.
    destruct (parse_value f r2) as [v r3| |]; cbn [bind]; try exact I.
    simpl in Hv.
    apply continue_case; [exact I| |].
    + intros r' Hr'. apply shrinks_weaken with (s := r'); [apply IHm | lia].
    + intros r' Hr'. simpl. lia.
Qed.

Lemma parse_total (f : nat) :
  (forall s, 2 * String.length s + 1 <= f -> parse_value f s <> OutOfFuel) /\
  (forall s acc, 2 * String.length s + 2 <= f ->
                 parse_elements f s acc <> OutOfFuel) /\
  (forall s acc, 2 * String.length s + 2 <= f ->
                 parse_members f s acc <> OutOfFuel).
Proof.
  induction f as [|f (IHv & IHe & IHm)]; [repeat split; intros; lia|].
  repeat split.
  - intros s Hf. rewrite parse_value_S.
    destruct (skip_ws s) as [|c r] eqn:E; [discriminate|].
    pose proof (skip_ws_length s) as Hl. rewrite E in Hl. simpl in Hl.
    destruct (Ascii.eqb c "[").
    { destruct (skip_ws r) as [|c' r'] eqn:E'; [discriminate|].
      destruct (Ascii.eqb c' "]"); [discriminate|]. apply IHe. lia. }
    destruct (Ascii.eqb c "{").
    { destruct (skip_ws r) as [|c' r'] eqn:E'; [discriminate|].
      destruct (Ascii.eqb c' "}"); [discriminate|]. apply IHm. lia. }
    apply parse_scalar_good.
  - intros s acc Hf. rewrite parse_elements_S.
    pose proof (IHv s ltac:(lia)) as Hv.
    destruct (parse_shrinks f) as (Sv & _ & _). specialize (Sv s).
    destruct (parse_value f s) as [v r| |]; cbn [bind];
      [|discriminate|contradiction].
    simpl in Sv.
    apply continue_case; [discriminate| |discriminate].
    intros r' Hr'. apply IHe. lia.
  - intros s acc Hf. rewrite parse_members_S.
    apply expect_case; [discriminate|]. intros r0 Hr0.
    destruct (parse_chars_good (String.length r0) r0 (le_n _)) as [Hn Hc].
    destruct (parse_chars r0) as [k r1| |]; cbn [bind];
      [|discriminate|contradiction].
    simpl in Hc.
    apply expect_case; [discriminate|]. intros r2 Hr2.
    pose proof (IHv r2 ltac:(lia)) as Hv.
    destruct (parse_shrinks f) as (Sv & _ & _). specialize (Sv r2).
    destruct (parse_value f r2) as [v r3| |]; cbn [bind];
      [|discriminate|contradiction].
    simpl in Sv.
    apply continue_case; [discriminate| |discriminate].
    intros r' Hr'. apply IHm. lia.
Qed.

(** With the fuel [parse] gives it, the parser always answers. *)
Lemma parse_value_answers (text : string) :
  parse_value (2 * String.length text + 2) text <> OutOfFuel.
Proof. apply parse_total. lia. Qed.

(** An answer obtained with some fuel is the answer [parse] gets. *)
Lemma parse_of_parse_value (f : nat) (text : string) (v : value) :
  parse_value f text = Ok v EmptyString -> parse text = Some v.
Proof.
  intros H. unfold parse.
  pose proof (parse_value_answers text) as Hans.
  set (F := 2 * String.length text + 2) in *.
  destruct (Nat.le_ge_cases f F) as [Hle | Hle].
  - destruct (parse_fuel_mono f F Hle) as (Hm & _ & _).
    destruct (Hm text) as [E | E]; [congruence|].
    rewrite <- E, H. reflexivity.
  - destruct (parse_fuel_mono F f Hle) as (Hm & _ & _).
    destruct (Hm text) as [E | E]; [contradiction|].
    rewrite E, H. reflexivity.
Qed.

(** *** Writing the index and reading it back *)

Lemma parse_stringify (idx : Index) :
  NoDup (Obj.keys idx) ->
  parse (stringify idx) = Some (value_of_index idx).
Proof.
  intros Hnd.
  set (m := list_max (map (fun e : string * PageRecord =>
                             List.length (links (snd e))) idx)).
  apply (parse_of_parse_value (S (m + List.length idx + 6))).
  rewrite parse_value_S. destruct idx as [|kv l]; [reflexivity|].
  rewrite <- (append_nil_r (stringify (kv :: l))).
  unfold stringify. cbn [map]. rewrite block_cons_app. cbn [append skip_ws].
  change (is_ws "{") with false. cbv iota.
  change (Ascii.eqb "{" "[") with false.
  change (Ascii.eqb "{" "{") with true. cbv iota.
  assert (Hhead : skip_ws (String LF (gap ++
            String.concat (separator gap) (map index_member (kv :: l))
            ++ String LF (String "}" EmptyString)))
          = String.concat (separator gap) (map index_member (kv :: l))
            ++ String LF (String "}" EmptyString)).
  { rewrite skip_ws_line by reflexivity.
    destruct (concat_head (separator gap) (index_member kv)
                (map index_member l) (String LF (String "}" EmptyString)))
      as [t Ht].
    cbn [map]. rewrite Ht. unfold index_member.
    rewrite member_app. apply skip_ws_quote. }
  cbn [map] in Hhead. rewrite Hhead.
  destruct (concat_head (separator gap) (index_member kv)
              (map index_member l) (String LF (String "}" EmptyString)))
    as [t Ht].
  rewrite Ht at 1. unfold index_member at 1. rewrite member_app, quote_app.
  change (Ascii.eqb dquote "}") with false. cbv iota.
  apply (parse_members_records EmptyString l kv _ _ []).
  - exact Hhead.
  - exact Hnd.
  - intros e He.
    assert (Hm : List.length (links (snd e)) <= m).
    { pose proof (proj1 (list_max_le _ m) (le_n _)) as Hall.
      rewrite Forall_forall in Hall. apply Hall.
      apply (in_map (fun e : string * PageRecord =>
                       List.length (links (snd e)))). exact He. }
    simpl. lia.
Qed.

Lemma strings_of_map (l : list string) : strings_of (map JStr l) = Some l.
Proof. induction l as [|x l IH]; simpl; [reflexivity | now rewrite IH]. Qed.

Lemma record_of_value_of_record (p : PageRecord) :
  record_of_value (value_of_record p) = Some p.
Proof.
  unfold record_of_value, value_of_record. cbn. rewrite strings_of_map.
  now destruct p.
Qed.

Lemma index_of_value_of_index (idx : Index) :
  index_of_value (value_of_index idx) = Some idx.
Proof.
  unfold index_of_value, value_of_index.
  induction idx as [|[k p] idx IH]; [reflexivity|].
  cbn [map records_of entry_value fst snd].
  now rewrite record_of_value_of_record, IH.
Qed.

End JSONFacts.

(** ** Properties of the crawler, the queue and the viewers *)

Section Program.

Local Open Scope string_scope.
Local Open Scope list_scope.

(** C4. [crawl(url, 0)] does nothing: the state after the call is the
    state before it, so no fetch is left in flight, no page record is
    created, nothing is written to [data.json], nothing is queued for
    delivery and the URL is not marked visited. *)
Theorem crawl_depth_zero (url : string) (st : State) :
  crawl url 0 st = st /\
  pending (crawl url 0 st) = pending st /\
  indexedUrls (crawl url 0 st) = indexedUrls st /\
  data_json (crawl url 0 st) = data_json st /\
  broadcastQueue (crawl url 0 st) = broadcastQueue st /\
  visited (crawl url 0 st) = visited st.
Proof. repeat split. Qed.

(** C5. A further [crawl(url, d)] on a URL already in the visited set does
    nothing, whatever the depth: no fetch, and the index, [data.json], the
    visited set and the delivery queue stay as they were. *)
Theorem crawl_visited (url : string) (d : nat) (st : State) :
  In url (visited st) ->
  crawl url d st = st /\
  pending (crawl url d st) = pending st /\
  indexedUrls (crawl url d st) = indexedUrls st /\
  data_json (crawl url d st) = data_json st /\
  visited (crawl url d st) = visited st /\
  broadcastQueue (crawl url d st) = broadcastQueue st.
Proof.
  intros H. apply includes_In in H.
  assert (E : crawl url d st = st).
  { unfold crawl. rewrite H. now destruct (Nat.eqb d 0). }
  rewrite E. repeat split.
Qed.

Lemma crawl_visited_witness :
  In seed (visited boot) /\ crawl seed 3 boot = boot.
Proof.
  split; [now left|].
  apply (crawl_visited seed 3 boot). now left.
Defined.

(** *** Replay to a new viewer *)

Lemma send_open (m : Message) (c : Client) :
  readyState c = OPEN ->
  send m c = mkClient (cid c) OPEN (sent c ++ [m]).
Proof. intros H. unfold send. now rewrite H. Qed.

Lemma replay_open (idx : Index) (urls : list string) : forall c,
  readyState c = OPEN ->
  fold_left (fun c url => send (mkMessage url (Obj.get idx url)) c) urls c
  = mkClient (cid c) OPEN (sent c ++ map (message_for idx) urls).
Proof.
  induction urls as [|u urls IH]; intros c Hc; simpl.
  - rewrite app_nil_r. destruct c; simpl in *. now subst.
  - rewrite IH by (now rewrite send_open).
    rewrite send_open by assumption. simpl.
    now rewrite <- app_assoc.
Qed.

(** C7. A viewer that connects while the index holds N page records is
    sent exactly N replay messages by the connection handler, one for each
    URL of the index, and the data of each message is the page record
    stored under its URL (never a missing one). *)
Theorem replay_complete (id : nat) (st : State) :
  exists ws,
    clients (on_connection id OPEN st) = clients st ++ [ws] /\
    cid ws = id /\
    List.length (sent ws) = List.length (indexedUrls st) /\
    map msg_url (sent ws) = Obj.keys (indexedUrls st) /\
    (forall m, In m (sent ws) ->
       exists p, msg_data m = Some p /\
                 Obj.get (indexedUrls st) (msg_url m) = Some p).
Proof.
  unfold on_connection. rewrite replay_open by reflexivity.
  eexists. split; [reflexivity|]. cbn [cid sent app].
  split; [reflexivity|].
  split; [unfold Obj.keys; now rewrite !length_map|].
  split.
  - rewrite map_map. cbn [message_for msg_url]. apply map_id.
  - intros m Hm. apply in_map_iff in Hm as (u & <- & Hu).
    cbn [message_for msg_url msg_data].
    destruct (get_In_keys _ _ Hu) as [p Hp]. exists p. now split.
Qed.

(** *** Start-up *)

(** C9. If [data.json] exists but does not parse, the failure is logged,
    the index is the empty index and the script goes on to crawl the seed;
    if [data.json] does not exist, the script starts with the empty index
    and goes on to crawl the seed as well. *)
Theorem startup_recovers (raw : string) :
  JSON.parse raw = None ->
  (startup_load (initial (Some raw))
     = Some (set_index [] (log LogLoadError (initial (Some raw)))) /\
   exists st, main (Some raw) = Some st /\
     indexedUrls st = [] /\
     console st = [LogLoadError; LogCrawling seed] /\
     visited st = [seed] /\ pending st = [(seed, 5)] /\
     data_json st = Some raw) /\
  (startup_load (initial None) = Some (log LogNoDataFile (initial None)) /\
   exists st, main None = Some st /\
     indexedUrls st = [] /\
     console st = [LogNoDataFile; LogCrawling seed] /\
     visited st = [seed] /\ pending st = [(seed, 5)] /\
     data_json st = None).
Proof.
  intros H. split.
  - assert (E : startup_load (initial (Some raw))
                = Some (set_index [] (log LogLoadError (initial (Some raw))))).
    { unfold startup_load. cbn [data_json initial]. now rewrite H. }
    split; [exact E|].
    unfold main. rewrite E. eexists. split; [reflexivity|].
    repeat split.
  - split; [reflexivity|].
    eexists. split; [reflexivity|]. repeat split.
Qed.

Lemma startup_recovers_witness :
  JSON.parse "{" = None /\
  startup_load (initial (Some "{"))
  = Some (set_index [] (log LogLoadError (initial (Some "{")))).
Proof.
  split; [reflexivity|].
  apply (startup_recovers "{"). reflexivity.
Defined.

(** *** What a drain tick delivers *)

Lemma drainTick_cons (st : State) (url : string) (rest : list string) :
  broadcastQueue st = url :: rest ->
  drainTick st
  = set_clients (map (send (message_for (indexedUrls st) url)) (clients st))
      (set_queue rest st).
Proof. intros H. unfold drainTick. now rewrite H. Qed.

Lemma broadcast_queue (url : string) (st : State) :
  broadcastQueue (broadcast url st) = broadcastQueue st ++ [url].
Proof. unfold broadcast. simpl. now destruct (isBroadcasting st). Qed.

Lemma broadcast_frame (url : string) (st : State) :
  indexedUrls (broadcast url st) = indexedUrls st /\
  data_json (broadcast url st) = data_json st /\
  clients (broadcast url st) = clients st /\
  visited (broadcast url st) = visited st /\
  pending (broadcast url st) = pending st /\
  console (broadcast url st) = console st.
Proof. unfold broadcast. simpl. destruct (isBroadcasting st); repeat split. Qed.

(** C2, as the code has it.  A queue entry is the URL alone: [broadcast]
    does not read the index.  The message pushed when the entry is drained
    carries the page record stored under the URL at the drain tick (or no
    data when there is none), whatever the record was when [broadcast] was
    called; it goes to the open viewers, the others get nothing. *)
Theorem drain_sends_current_record (st : State) (url : string)
    (rest : list string) :
  broadcastQueue st = url :: rest ->
  broadcastQueue (drainTick st) = rest /\
  indexedUrls (drainTick st) = indexedUrls st /\
  clients (drainTick st)
    = map (delivered (indexedUrls st) [url]) (clients st) /\
  (forall (idx : Index) (u : string),
     broadcastQueue (broadcast u (set_index idx st))
     = broadcastQueue (broadcast u st)).
Proof.
  intros H. rewrite (drainTick_cons st url rest H).
  split; [reflexivity|]. split; [reflexivity|]. split.
  - cbn [clients set_clients set_queue]. apply map_ext. intros c.
    reflexivity.
  - intros idx u. now rewrite !broadcast_queue.
Qed.

Lemma drain_sends_current_record_witness :
  broadcastQueue (broadcast seed boot) = [seed] /\
  clients (drainTick (broadcast seed boot))
  = map (delivered (indexedUrls (broadcast seed boot)) [seed])
      (clients (broadcast seed boot)).
Proof.
  split; [reflexivity|].
  apply (drain_sends_current_record (broadcast seed boot) seed []).
  reflexivity.
Defined.

(** C2 fails as stated.  The seed is crawled and queued while its rank is
    0; the page it links to is crawled and links back; the ranks are
    recomputed; the drain tick then delivers the seed with rank 10, not
    with the rank it had when it was queued. *)
Lemma drain_not_enqueue_snapshot :
  exists st_enqueued st_drained,
    run [ Connect 1 OPEN;
          FetchDone 0 (FetchOk "Seed" [Some page_a]) true ] boot
      = Some st_enqueued /\
    run [ FetchDone 0 (FetchOk "A" [Some seed]) true; RankTick; DrainTick ]
        st_enqueued
      = Some st_drained /\
    broadcastQueue st_enqueued = [seed] /\
    Obj.get (indexedUrls st_enqueued) seed
      = Some (mkPage "Seed" [page_a] 0) /\
    map sent (clients st_drained)
      = [[mkMessage seed (Some (mkPage "Seed" [page_a] 10))]] /\
    map sent (clients st_drained)
      <> [[mkMessage seed (Obj.get (indexedUrls st_enqueued) seed)]].
Proof.
  eexists. eexists.
  split; [vm_compute; reflexivity|].
  split; [vm_compute; reflexivity|].
  split; [reflexivity|].
  split; [reflexivity|].
  split; [reflexivity|].
  vm_compute. discriminate.
Qed.

(** *** Draining the queue *)

Lemma broadcast_all_queue (urls : list string) : forall st,
  broadcastQueue (broadcast_all urls st) = broadcastQueue st ++ urls /\
  indexedUrls (broadcast_all urls st) = indexedUrls st /\
  data_json (broadcast_all urls st) = data_json st /\
  clients (broadcast_all urls st) = clients st.
Proof.
  induction urls as [|u urls IH]; intros st; cbn [broadcast_all fold_left].
  - rewrite app_nil_r. repeat split.
  - destruct (IH (broadcast u st)) as (Hq & Hi & Hd & Hc).
    unfold broadcast_all in *. rewrite Hq, Hi, Hd, Hc.
    rewrite broadcast_queue, <- app_assoc.
    destruct (broadcast_frame u st) as (-> & -> & -> & _).
    repeat split.
Qed.

Lemma broadcast_timer (url : string) (st : State) :
  isBroadcasting (broadcast url st) = true /\
  timers st <= timers (broadcast url st) /\
  ((isBroadcasting st = true -> 1 <= timers st) ->
   1 <= timers (broadcast url st)).
Proof.
  unfold broadcast. simpl. destruct (isBroadcasting st) eqn:E; simpl.
  - repeat split; auto.
  - repeat split; lia.
Qed.

Lemma broadcast_all_timer (urls : list string) : forall st,
  urls <> [] ->
  (isBroadcasting st = true -> 1 <= timers st) ->
  1 <= timers (broadcast_all urls st).
Proof.
  induction urls as [|u urls IH]; intros st Hne Hinv; [contradiction|].
  cbn [broadcast_all fold_left].
  destruct (broadcast_timer u st) as (Hb & Hle & H1).
  destruct urls as [|u' urls'].
  - simpl. auto.
  - apply IH; [discriminate | auto].
Qed.

Lemma delivered_nil (idx : Index) (c : Client) : delivered idx [] c = c.
Proof.
  unfold delivered. destruct (is_open (readyState c)); [|reflexivity].
  simpl. rewrite app_nil_r. now destruct c.
Qed.

Lemma delivered_cons (idx : Index) (u : string) (us : list string)
    (c : Client) :
  delivered idx us (send (message_for idx u) c) = delivered idx (u :: us) c.
Proof.
  unfold delivered, send. destruct (is_open (readyState c)) eqn:E; simpl.
  - rewrite E. simpl. now rewrite <- app_assoc.
  - now rewrite E.
Qed.

Lemma ticks_spec (k : nat) : forall st,
  broadcastQueue (ticks k st) = skipn k (broadcastQueue st) /\
  indexedUrls (ticks k st) = indexedUrls st /\
  clients (ticks k st)
    = map (delivered (indexedUrls st) (firstn k (broadcastQueue st)))
        (clients st).
Proof.
  induction k as [|k IH]; intros st; cbn [ticks].
  - cbn [skipn firstn]. repeat split.
    rewrite (map_ext _ (fun c => c)) by (intros; apply delivered_nil).
    now rewrite map_id.
  - destruct (IH (drainTick st)) as (Hq & Hi & Hc).
    rewrite Hq, Hi, Hc. clear Hq Hi Hc.
    destruct (broadcastQueue st) as [|u rest] eqn:E.
    + assert (Hd : drainTick st = set_broadcasting false st)
        by (unfold drainTick; now rewrite E).
      rewrite Hd. cbn [set_broadcasting broadcastQueue indexedUrls clients].
      rewrite E, skipn_nil, firstn_nil. cbn [skipn firstn]. repeat split.
    + rewrite (drainTick_cons st u rest E).
      cbn [set_clients set_queue broadcastQueue indexedUrls clients
           skipn firstn].
      repeat split.
      rewrite map_map. apply map_ext. intros c. apply delivered_cons.
Qed.

(** C8. Once K URLs have been queued on an empty queue and nothing else
    happens, the k-th drain tick finds the k-th queued URL at the head of
    the queue: after k ticks every open viewer has been sent the messages
    for the first k URLs, in the order they were queued, and the queue
    holds the rest; after K ticks or more the queue is empty and every
    open viewer has been sent exactly K messages.  A tick never takes more
    than the head of the queue, however long the queue is; viewers that
    are not open are sent nothing.  The interval that fires the ticks is
    there as soon as something is queued. *)
Theorem drain_fifo (st : State) (urls : list string) :
  broadcastQueue st = [] ->
  let queued := broadcast_all urls st in
  broadcastQueue queued = urls /\
  (forall k,
     broadcastQueue (ticks k queued) = skipn k urls /\
     clients (ticks k queued)
       = map (delivered (indexedUrls st) (firstn k urls)) (clients st)) /\
  (forall k, List.length urls <= k ->
     broadcastQueue (ticks k queued) = [] /\
     clients (ticks k queued)
       = map (delivered (indexedUrls st) urls) (clients st) /\
     forall c, In c (clients st) ->
       (readyState c = OPEN ->
        sent (delivered (indexedUrls st) urls c)
          = sent c ++ map (message_for (indexedUrls st)) urls /\
        List.length (sent (delivered (indexedUrls st) urls c))
          = List.length (sent c) + List.length urls) /\
       (readyState c <> OPEN -> delivered (indexedUrls st) urls c = c)) /\
  (forall s, broadcastQueue (drainTick s) = tl (broadcastQueue s)) /\
  (urls <> [] -> (isBroadcasting st = true -> 1 <= timers st) ->
   1 <= timers queued).
Proof.
  intros Hq queued.
  destruct (broadcast_all_queue urls st) as (Hqq & Hi & _ & Hc).
  fold queued in Hqq, Hi, Hc. rewrite Hq in Hqq. cbn [app] in Hqq.
  assert (Hk : forall k,
     broadcastQueue (ticks k queued) = skipn k urls /\
     clients (ticks k queued)
       = map (delivered (indexedUrls st) (firstn k urls)) (clients st)).
  { intros k. destruct (ticks_spec k queued) as (H1 & _ & H3).
    rewrite H1, H3, Hqq, Hi, Hc. split; reflexivity. }
  split; [exact Hqq|]. split; [exact Hk|]. split; [|split].
  - intros k Hlen. destruct (Hk k) as [H1 H2].
    rewrite H1, H2, skipn_all2, firstn_all2 by assumption.
    split; [reflexivity|]. split; [reflexivity|].
    intros c Hin. unfold delivered. split.
    + intros ->. cbn. split; [reflexivity|].
      now rewrite length_app, length_map.
    + intros Hno. destruct (readyState c); try reflexivity. contradiction.
  - intros s. unfold drainTick.
    destruct (broadcastQueue s) as [|u rest] eqn:E; cbn; [exact E | reflexivity].
  - apply broadcast_all_timer.
Qed.

Lemma drain_fifo_witness :
  broadcastQueue boot = [] /\
  broadcastQueue (ticks 2 (broadcast_all [seed; page_a] boot)) = [].
Proof.
  split; [reflexivity|].
  apply (drain_fifo boot [seed; page_a] eq_refl).
Defined.

(** *** Failed fetches *)

Lemma crawl_run_cons (web : string -> Response) (i : nat) (w : bool)
    (rest : list (nat * bool)) (st : State) :
  crawl_run web ((i, w) :: rest) st =
  match nth_error (pending st) i with
  | Some (url, depth) =>
      crawl_run web rest
        (crawl_resume url depth (web url) w
           (set_pending (remove_nth i (pending st)) st))
  | None => None
  end.
Proof.
  cbn [crawl_run apply_event].
  destruct (nth_error (pending st) i) as [[url depth]|]; reflexivity.
Qed.

(** One answered fetch of an execution whose state is known: the choice is
    split into the fetches in flight, the state is computed. *)
Ltac answer H :=
  match type of H with
  | crawl_run ?web ((?i, ?w) :: ?rest) ?S = Some _ =>
      rewrite crawl_run_cons in H;
      let p := eval vm_compute in (pending S) in
      replace (pending S) with p in H by (vm_compute; reflexivity);
      destruct w;
      repeat (destruct i as [|i]; cbn [nth_error remove_nth] in H;
              try discriminate H);
      try (destruct i; discriminate H);
      match type of H with
      | crawl_run _ _ ?S' = Some _ =>
          let v := eval vm_compute in S' in
          replace S' with v in H by (vm_compute; reflexivity)
      end
  end.

Lemma half_web_runs (choices : list (nat * bool)) (st : State) :
  crawl_run half_web choices (boot_at 2) = Some st ->
  List.length choices <= 3 /\
  (pending st = [] <-> List.length choices = 3) /\
  (pending st = [] ->
   has_record st seed = true /\
   has_record st page_a = true /\
   has_record st page_b = false /\
   In (LogCrawlError page_b "connect ECONNREFUSED") (console st)).
Proof.
  intros H.
  destruct choices as [|[i1 w1] c1].
  { injection H as <-. vm_compute. repeat split; try lia; discriminate. }
  answer H;
  (destruct c1 as [|[i2 w2] c2];
   [ injection H as <-; vm_compute; repeat split; try lia; discriminate
   | answer H;
     (destruct c2 as [|[i3 w3] c3];
      [ injection H as <-; vm_compute; repeat split; try lia; discriminate
      | answer H;
        (destruct c3 as [|[i4 w4] c4];
         [ injection H as <-; vm_compute; repeat split; try lia; auto 10
         | rewrite crawl_run_cons in H; cbn [pending nth_error] in H;
           destruct i4; discriminate H ]) ]) ]).
Qed.

(** C6. When the fetch or the extraction fails, the [catch] clause of
    [crawl] logs the URL and the message; no page record is created, no
    link is followed, nothing is written or queued, and the call ends
    normally, so the fetches of sibling branches stay in flight and are
    answered later.  In the web where the seed links to a page that
    answers and to one that does not, crawled at depth 2, every order of
    answers ends after three of them with records for the seed and for the
    page that answers, none for the other one, and its failure in the
    log. *)
Theorem fetch_failure_isolated :
  (forall (url : string) (depth : nat) (message : string) (w : bool)
          (st : State),
     crawl_try url depth (FetchError message) w st = Throw message st /\
     crawl_resume url depth (FetchError message) w st
       = log (LogCrawlError url message) st /\
     console (crawl_resume url depth (FetchError message) w st)
       = console st ++ [LogCrawlError url message] /\
     indexedUrls (crawl_resume url depth (FetchError message) w st)
       = indexedUrls st /\
     pending (crawl_resume url depth (FetchError message) w st)
       = pending st /\
     visited (crawl_resume url depth (FetchError message) w st)
       = visited st /\
     data_json (crawl_resume url depth (FetchError message) w st)
       = data_json st /\
     broadcastQueue (crawl_resume url depth (FetchError message) w st)
       = broadcastQueue st) /\
  (forall (i : nat) (url : string) (depth : nat) (message : string)
          (w : bool) (st : State),
     nth_error (pending st) i = Some (url, depth) ->
     exists st',
       apply_event (FetchDone i (FetchError message) w) st = Some st' /\
       pending st' = remove_nth i (pending st) /\
       indexedUrls st' = indexedUrls st) /\
  (exists choices st,
     crawl_run half_web choices (boot_at 2) = Some st /\ pending st = []) /\
  (forall choices st,
     crawl_run half_web choices (boot_at 2) = Some st ->
     List.length choices <= 3 /\
     (pending st = [] ->
      has_record st seed = true /\
      has_record st page_a = true /\
      has_record st page_b = false /\
      In (LogCrawlError page_b "connect ECONNREFUSED") (console st))).
Proof.
  split; [|split; [|split]].
  - intros. repeat split.
  - intros i url depth message w st H. eexists.
    cbn [apply_event]. rewrite H. split; [reflexivity|]. split; reflexivity.
  - exists [(0, true); (1, true); (0, true)]. eexists.
    split; [vm_compute; reflexivity | reflexivity].
  - intros choices st H.
    destruct (half_web_runs choices st H) as (H1 & _ & H3). now split.
Qed.

(** *** Persistence *)

(** C3. Saving an index and loading it back gives the same index: the text
    written by [JSON.stringify] parses, [JSON.parse] returns the value that
    was written, and on the next start the index has the same URLs in the
    same order, each with the same title, the same links in the same order
    and the same rank. *)
Theorem persistence_round_trip (idx : Index) :
  NoDup (Obj.keys idx) ->
  JSON.parse (JSON.stringify idx) = Some (JSON.value_of_index idx) /\
  JSON.index_of_value (JSON.value_of_index idx) = Some idx /\
  forall st, indexedUrls st = idx ->
    data_json (save true st) = Some (JSON.stringify idx) /\
    exists st',
      startup_load (initial (data_json (save true st))) = Some st' /\
      indexedUrls st' = idx /\
      Obj.keys (indexedUrls st') = Obj.keys idx /\
      forall u, Obj.get (indexedUrls st') u = Obj.get idx u.
Proof.
  intros Hnd.
  pose proof (parse_stringify idx Hnd) as Hp.
  pose proof (index_of_value_of_index idx) as Hv.
  split; [exact Hp|]. split; [exact Hv|].
  intros st <-. split; [reflexivity|].
  unfold startup_load, save.
  cbn [data_json initial log set_data_json].
  rewrite Hp. unfold JSON.value_of_index at 1. fold (JSON.value_of_index (indexedUrls st)).
  rewrite Hv. eexists. split; [reflexivity|].
  destruct (broadcast_all_queue
              (firstn 100 (Obj.keys (indexedUrls st)))
              (log LogDataLoaded
                 (set_index (indexedUrls st)
                    (initial (Some (JSON.stringify (indexedUrls st)))))))
    as (_ & Hi & _).
  rewrite Hi. repeat split.
Qed.

Lemma persistence_round_trip_witness :
  NoDup (Obj.keys three_pages) /\
  JSON.parse (JSON.stringify three_pages)
  = Some (JSON.value_of_index three_pages).
Proof.
  assert (H : NoDup (Obj.keys three_pages)).
  { cbn. repeat constructor; cbn; intuition discriminate. }
  split; [exact H|].
  apply (persistence_round_trip three_pages H).
Defined.

(** *** The links of a record *)

Lemma keep_href_prefix (h : string) :
  keep_href (Some h) = true -> String.prefix "http" h = true.
Proof. unfold keep_href. intros H. now apply andb_true_iff in H. Qed.

Lemma extract_links_filter (anchors : list (option string)) :
  map Some (extract_links anchors) = filter keep_href anchors.
Proof.
  induction anchors as [|[h|] rest IH]; cbn [extract_links filter].
  - reflexivity.
  - destruct (keep_href (Some h)); cbn [map]; now rewrite IH.
  - cbn [keep_href]. exact IH.
Qed.

Lemma extract_links_http (anchors : list (option string)) :
  Forall (fun l => String.prefix "http" l = true) (extract_links anchors).
Proof.
  induction anchors as [|[h|] rest IH]; cbn [extract_links].
  - constructor.
  - destruct (keep_href (Some h)) eqn:E; [|exact IH].
    constructor; [now apply keep_href_prefix | exact IH].
  - exact IH.
Qed.

Lemma keys_set {A} (o : list (string * A)) (k : string) (v : A) :
  Obj.keys (Obj.set o k v) = Obj.keys o \/
  (~ In k (Obj.keys o) /\ Obj.keys (Obj.set o k v) = Obj.keys o ++ [k]).
Proof.
  induction o as [|[k' v'] o IH]; cbn [Obj.set Obj.keys map fst].
  - right. split; [tauto | reflexivity].
  - destruct (String.eqb k' k) eqn:E; [now left|].
    apply String.eqb_neq in E.
    destruct IH as [IH | [Hn IH]]; unfold Obj.keys in *.
    + left. cbn [map fst]. now rewrite IH.
    + right. split; [simpl; tauto|]. cbn [map fst app]. now rewrite IH.
Qed.

Lemma NoDup_keys_set {A} (o : list (string * A)) (k : string) (v : A) :
  NoDup (Obj.keys o) -> NoDup (Obj.keys (Obj.set o k v)).
Proof.
  intros H. destruct (keys_set o k v) as [-> | [Hn ->]]; [exact H|].
  apply NoDup_app; [exact H | repeat constructor; simpl; tauto |].
  intros x Hx [<- | []]. contradiction.
Qed.

Lemma In_set {A} (o : list (string * A)) (k : string) (v : A)
    (e : string * A) :
  In e (Obj.set o k v) -> snd e = v \/ In e o.
Proof.
  induction o as [|[k' v'] o IH]; cbn [Obj.set].
  - intros [<- | []]. now left.
  - destruct (String.eqb k' k).
    + intros [<- | H]; [now left | right; now right].
    + intros [<- | H]; [right; now left|].
      destruct (IH H); [now left | right; now right].
Qed.

Lemma get_set_same {A} (o : list (string * A)) (k : string) (v : A) :
  Obj.get (Obj.set o k v) k = Some v.
Proof.
  induction o as [|[k' v'] o IH]; cbn [Obj.set Obj.get].
  - now rewrite String.eqb_refl.
  - destruct (String.eqb k' k) eqn:E; cbn [Obj.get]; now rewrite E.
Qed.

Lemma link_invariant_core (st st' : State) :
  core st' = core st -> link_invariant st -> link_invariant st'.
Proof.
  unfold core, link_invariant. intros [= -> -> ->]. exact (fun H => H).
Qed.

Lemma crawl_core (url : string) (d : nat) (st : State) :
  core (crawl url d st) = core st.
Proof.
  unfold crawl. destruct (Nat.eqb d 0); [reflexivity|].
  now destruct (includes (visited st) url).
Qed.

Lemma crawl_all_core (d : nat) (found : list string) : forall st,
  core (fold_left (fun s link => crawl link d s) found st) = core st.
Proof.
  induction found as [|l found IH]; intros st; cbn [fold_left];
    [reflexivity|].
  now rewrite IH, crawl_core.
Qed.

Lemma broadcast_core (url : string) (st : State) :
  core (broadcast url st) = core st.
Proof. unfold broadcast. simpl. now destruct (isBroadcasting st). Qed.

Lemma broadcast_all_core (urls : list string) : forall st,
  core (broadcast_all urls st) = core st.
Proof.
  induction urls as [|u urls IH]; intros st; [reflexivity|].
  cbn [broadcast_all fold_left]. fold (broadcast_all urls (broadcast u st)).
  now rewrite IH, broadcast_core.
Qed.

Lemma index_ok_crawled (idx : Index) (url t : string)
    (anchors : list (option string)) :
  index_ok idx ->
  index_ok (Obj.update (Obj.set idx url (mkPage t [] 0)) url
              (fun p => with_links p (extract_links anchors))).
Proof.
  intros [Hnd Hall]. split.
  - rewrite keys_update. now apply NoDup_keys_set.
  - unfold Obj.update. apply Forall_forall. intros e He.
    apply in_map_iff in He as ([k p] & <- & Hin). cbn [fst snd].
    assert (Hp : http_links p).
    { apply In_set in Hin as [Hs | Hin].
      - cbn [snd] in Hs. subst p. constructor.
      - rewrite Forall_forall in Hall. apply (Hall (k, p) Hin). }
    destruct (String.eqb k url); cbn [snd]; [|exact Hp].
    apply extract_links_http.
Qed.

Lemma message_for_ok (idx : Index) (url : string) :
  index_ok idx -> message_ok (message_for idx url).
Proof.
  intros [_ Hall]. unfold message_ok, message_for. cbn [msg_data].
  destruct (Obj.get idx url) as [p|] eqn:E; [|exact I].
  apply get_Some_In in E. rewrite Forall_forall in Hall.
  apply (Hall (url, p) E).
Qed.

Lemma send_ok (m : Message) (c : Client) :
  message_ok m -> Forall message_ok (sent c) ->
  Forall message_ok (sent (send m c)).
Proof.
  intros Hm Hc. unfold send. destruct (is_open (readyState c)); [|exact Hc].
  cbn [sent]. apply Forall_app. split; [exact Hc | now constructor].
Qed.

Lemma replay_ok (idx : Index) (urls : list string) : forall c,
  index_ok idx -> Forall message_ok (sent c) ->
  Forall message_ok
    (sent (fold_left
             (fun c url => send (mkMessage url (Obj.get idx url)) c) urls c)).
Proof.
  induction urls as [|u urls IH]; intros c Hidx Hc; cbn [fold_left];
    [exact Hc|].
  apply IH; [exact Hidx|].
  apply send_ok; [apply (message_for_ok idx u Hidx) | exact Hc].
Qed.

Lemma remove_client_incl (id : nat) (cs : list Client) :
  incl (remove_client id cs) cs.
Proof.
  induction cs as [|c cs IH]; cbn [remove_client]; [apply incl_refl|].
  destruct (Nat.eqb (cid c) id).
  - apply incl_tl, incl_refl.
  - intros x [<- | Hx]; [now left | right; now apply IH].
Qed.

Lemma index_ok_ranked (urls : list string) (idx0 idx : Index) :
  index_ok idx -> index_ok (ranked urls idx0 idx).
Proof.
  intros [Hnd Hall]. split.
  - now rewrite keys_ranked.
  - unfold ranked. apply Forall_forall. intros e He.
    apply in_map_iff in He as ([k p] & <- & Hin). cbn [fst snd].
    rewrite Forall_forall in Hall. specialize (Hall (k, p) Hin).
    now destruct (includes urls k).
Qed.

Lemma main_invariant (disk : option string) (st : State) :
  disk_ok disk -> main disk = Some st -> link_invariant st.
Proof.
  intros Hd. unfold main.
  destruct (startup_load (initial disk)) as [st1|] eqn:E; [|discriminate].
  intros [= <-]. apply (link_invariant_core st1); [apply crawl_core|].
  unfold startup_load in E. cbn [data_json initial] in E.
  destruct disk as [doc|].
  - destruct Hd as (idx & -> & Hidx).
    rewrite (parse_stringify idx (proj1 Hidx)) in E.
    unfold JSON.value_of_index at 1 in E.
    fold (JSON.value_of_index idx) in E.
    rewrite index_of_value_of_index in E. injection E as <-.
    eapply link_invariant_core; [apply broadcast_all_core|].
    split; [exact Hidx|]. split; [|constructor].
    exists idx. now split.
  - injection E as <-. split; [split; constructor|].
    split; [exact I | constructor].
Qed.

Lemma apply_event_invariant (e : Event) (st st' : State) :
  link_invariant st -> apply_event e st = Some st' -> link_invariant st'.
Proof.
  intros (Hidx & Hdisk & Hcl) H.
  destruct e as [i resp w| | |id rs|id|id rs|]; cbn [apply_event] in H.
  - destruct (nth_error (pending st) i) as [[url depth]|]; [|discriminate].
    injection H as <-. unfold crawl_resume, crawl_try.
    destruct resp as [t anchors|message].
    + eapply link_invariant_core; [apply crawl_all_core|].
      eapply link_invariant_core; [apply broadcast_core|].
      set (t' := if String.eqb t "" then "No title" else t).
      pose proof (index_ok_crawled (indexedUrls st) url t' anchors Hidx) as Hi.
      unfold save. destruct w.
      * split; [exact Hi|]. split; [|exact Hcl].
        eexists. split; [reflexivity | exact Hi].
      * split; [exact Hi|]. split; [exact Hdisk | exact Hcl].
    + split; [exact Hidx|]. split; [exact Hdisk | exact Hcl].
  - destruct (Nat.ltb 0 (timers st)); [|discriminate]. injection H as <-.
    unfold drainTick. destruct (broadcastQueue st) as [|u rest].
    + split; [exact Hidx|]. split; [exact Hdisk | exact Hcl].
    + split; [exact Hidx|]. split; [exact Hdisk|].
      cbn [clients set_clients]. apply Forall_forall. intros c Hc.
      apply in_map_iff in Hc as (c0 & <- & Hc0).
      rewrite Forall_forall in Hcl.
      apply send_ok; [apply (message_for_ok _ u Hidx) | now apply Hcl].
  - unfold rank_tick in H. rewrite recalculateRanks_closed in H.
    injection H as <-.
    split; [now apply index_ok_ranked|]. split; [exact Hdisk | exact Hcl].
  - injection H as <-. unfold on_connection.
    split; [exact Hidx|]. split; [exact Hdisk|].
    cbn [clients set_clients log]. apply Forall_app. split; [exact Hcl|].
    constructor; [|constructor].
    apply replay_ok; [exact Hidx | constructor].
  - injection H as <-. unfold on_close.
    split; [exact Hidx|]. split; [exact Hdisk|].
    cbn [clients set_clients log]. apply Forall_forall. intros c Hc.
    rewrite Forall_forall in Hcl. apply Hcl.
    now apply (remove_client_incl id).
  - injection H as <-. unfold set_ready.
    split; [exact Hidx|]. split; [exact Hdisk|].
    cbn [clients set_clients]. apply Forall_forall. intros c Hc.
    apply in_map_iff in Hc as (c0 & <- & Hc0).
    rewrite Forall_forall in Hcl. specialize (Hcl c0 Hc0).
    now destruct (Nat.eqb (cid c0) id).
  - now apply (main_invariant (data_json st)).
Qed.

Lemma run_invariant (events : list Event) : forall st st',
  link_invariant st -> run events st = Some st' -> link_invariant st'.
Proof.
  induction events as [|e events IH]; intros st st' Hinv H; cbn [run] in H.
  - now injection H as <-.
  - destruct (apply_event e st) as [st1|] eqn:E; [|discriminate].
    apply (IH st1); [|exact H].
    now apply (apply_event_invariant e st).
Qed.

Lemma boot_invariant : link_invariant boot.
Proof. apply (main_invariant None); [exact I | reflexivity]. Qed.

Lemma core_index (st st' : State) :
  core st' = core st -> indexedUrls st' = indexedUrls st.
Proof. unfold core. now intros [= -> _ _]. Qed.

Lemma crawl_try_index (url : string) (depth : nat) (t : string)
    (anchors : list (option string)) (w : bool) (s : State) :
  exists s',
    crawl_try url depth (FetchOk t anchors) w s = Normal s' /\
    indexedUrls s'
    = Obj.update
        (Obj.set (indexedUrls s) url
           (mkPage (if String.eqb t "" then "No title" else t) [] 0))
        url (fun p => with_links p (extract_links anchors)).
Proof.
  unfold crawl_try. eexists. split; [reflexivity|].
  rewrite (core_index _ _ (crawl_all_core _ _ _)).
  rewrite (core_index _ _ (broadcast_core _ _)).
  unfold save. now destruct w.
Qed.

(** C10. The links of the page record that [crawl] creates are the [href]
    values of the anchors of the page that are present and start with
    [http], in the order of the page, repeats included; the other anchors
    leave no trace.  From a first start without [data.json], whatever
    happens next (answers to fetches, timer ticks, viewers coming and
    going, restarts of the process), every link of every record in the
    index starts with [http], [data.json] holds the serialisation of such
    an index, and so does the data of every message sent to a viewer. *)
Theorem links_start_with_http (events : list Event) (st : State) :
  run events boot = Some st ->
  link_invariant st /\
  (forall u p, Obj.get (indexedUrls st) u = Some p ->
     forall l, In l (links p) -> String.prefix "http" l = true) /\
  (forall (url : string) (depth : nat) (t : string)
          (anchors : list (option string)) (w : bool) (s : State),
     exists s' p,
       crawl_try url depth (FetchOk t anchors) w s = Normal s' /\
       Obj.get (indexedUrls s') url = Some p /\
       links p = extract_links anchors /\
       map Some (links p) = filter keep_href anchors /\
       (forall href, keep_href href = true <->
          exists h, href = Some h /\ h <> "" /\
                    String.prefix "http" h = true)).
Proof.
  intros H.
  pose proof (run_invariant events boot st boot_invariant H) as Hinv.
  split; [exact Hinv|]. split.
  - intros u p Hp l Hl. destruct Hinv as ((_ & Hall) & _).
    apply get_Some_In in Hp. rewrite Forall_forall in Hall.
    specialize (Hall (u, p) Hp). cbn [snd] in Hall.
    unfold http_links in Hall. rewrite Forall_forall in Hall. now apply Hall.
  - intros url depth t anchors w s.
    destruct (crawl_try_index url depth t anchors w s) as (s' & Hs' & Hi).
    exists s'. eexists. split; [exact Hs'|]. rewrite Hi.
    rewrite get_update, get_set_same, String.eqb_refl.
    split; [reflexivity|]. cbn [links with_links].
    split; [reflexivity|]. split; [apply extract_links_filter|].
    intros href. split.
    + destruct href as [h|]; [|discriminate]. intros Hk.
      exists h. split; [reflexivity|]. unfold keep_href in Hk.
      apply andb_true_iff in Hk as [Hne Hp]. split; [|exact Hp].
      apply negb_true_iff, String.eqb_neq in Hne. exact Hne.
    + intros (h & -> & Hne & Hp). unfold keep_href.
      apply String.eqb_neq in Hne. now rewrite Hne, Hp.
Qed.

Lemma links_start_with_http_witness :
  exists st, run loop_events boot = Some st /\ link_invariant st.
Proof.
  eexists. split; [vm_compute; reflexivity|].
  apply (links_start_with_http loop_events). vm_compute. reflexivity.
Defined.

End Program.

(** ** Further properties of the server *)

Section Server.

Local Open Scope string_scope.
Local Open Scope list_scope.

(** *** The rank engine, again *)

Lemma ranked_ranked (idx : Index) :
  ranked (Obj.keys idx) (ranked (Obj.keys idx) idx idx)
    (ranked (Obj.keys idx) idx idx)
  = ranked (Obj.keys idx) idx idx.
Proof.
  unfold ranked at 1.
  transitivity (map (fun kv : string * PageRecord => kv)
                  (ranked (Obj.keys idx) idx idx)); [|apply map_id].
  apply map_ext_in. intros [k p] Hin. cbn [fst snd].
  assert (E : backlink_rank (ranked (Obj.keys idx) idx idx) k
              = backlink_rank idx k).
  { rewrite !backlink_rank_referrers. f_equal. f_equal.
    apply referrers_links, links_ranked. }
  rewrite E. unfold ranked in Hin.
  apply in_map_iff in Hin as ([k0 p0] & Heq & _). cbn [fst snd] in Heq.
  destruct (includes (Obj.keys idx) k0) eqn:Ek.
  - injection Heq as <- <-. rewrite Ek. reflexivity.
  - injection Heq as <- <-. rewrite Ek. reflexivity.
Qed.

(** X1. Recomputing the ranks twice in a row gives what recomputing them
    once gives: the ranks depend on the links only, which the pass does not
    touch. *)
Theorem recalculateRanks_idempotent (idx : Index) :
  exists idx',
    recalculateRanks idx = Some idx' /\ recalculateRanks idx' = Some idx'.
Proof.
  exists (ranked (Obj.keys idx) idx idx).
  split; [apply recalculateRanks_closed|].
  rewrite recalculateRanks_closed, keys_ranked. f_equal. apply ranked_ranked.
Qed.

Lemma referrers_le (idx : Index) (u : string) :
  referrers idx u <= List.length idx.
Proof.
  unfold referrers, Obj.values.
  rewrite <- (length_map snd idx). apply filter_length_le.
Qed.

(** X2. After [recalculateRanks] every rank is a multiple of 10 between 0
    and 10 times the number of page records, whatever the ranks were
    before (a rank loaded from disk may be anything). *)
Theorem recalculateRanks_bounds (idx : Index) :
  exists idx',
    recalculateRanks idx = Some idx' /\
    List.length idx' = List.length idx /\
    forall u p, Obj.get idx' u = Some p ->
      (0 <= rank p <= 10 * Z.of_nat (List.length idx))%Z /\
      (rank p mod 10 = 0)%Z.
Proof.
  exists (ranked (Obj.keys idx) idx idx).
  split; [apply recalculateRanks_closed|].
  split; [unfold ranked; apply length_map|].
  intros u p Hp. rewrite get_ranked in Hp.
  destruct (Obj.get idx u) as [p0|] eqn:E; [|discriminate].
  assert (Hk : includes (Obj.keys idx) u = true).
  { apply includes_In. apply get_Some_In in E.
    unfold Obj.keys. change u with (fst (u, p0)). now apply in_map. }
  rewrite Hk in Hp. injection Hp as <-. cbn [rank with_rank].
  rewrite backlink_rank_referrers.
  pose proof (referrers_le idx u) as Hle. split; [lia|].
  rewrite Z.mul_comm. apply Z.mod_mul. discriminate.
Qed.

(** *** The intervals started by [broadcast] *)

Lemma quiet_cycle_idle (st : State) (url : string) :
  broadcastQueue st = [] -> isBroadcasting st = false ->
  broadcastQueue (quiet_cycle st url) = [] /\
  isBroadcasting (quiet_cycle st url) = false /\
  timers (quiet_cycle st url) = S (timers st).
Proof.
  intros Hq Hb. unfold quiet_cycle, broadcast.
  cbn [set_queue isBroadcasting]. rewrite Hb, Hq. cbn. repeat split.
Qed.

Lemma quiet_cycles_timers (urls : list string) : forall st,
  broadcastQueue st = [] -> isBroadcasting st = false ->
  broadcastQueue (fold_left quiet_cycle urls st) = [] /\
  isBroadcasting (fold_left quiet_cycle urls st) = false /\
  timers (fold_left quiet_cycle urls st) = timers st + List.length urls.
Proof.
  induction urls as [|u urls IH]; intros st Hq Hb; cbn [fold_left length].
  - repeat split; auto.
  - destruct (quiet_cycle_idle st u Hq Hb) as (Hq' & Hb' & Ht').
    destruct (IH _ Hq' Hb') as (H1 & H2 & H3).
    repeat split; auto. rewrite H3, Ht'. lia.
Qed.

(** X3. No interval is ever cleared.  Neither [broadcast] nor a tick
    lowers the number of running intervals, and each time a URL is queued
    after a tick has found the queue empty, one more interval is started:
    after n such rounds there are n more intervals firing every 100 ms. *)
Theorem intervals_pile_up (st : State) (urls : list string) :
  broadcastQueue st = [] -> isBroadcasting st = false ->
  timers (fold_left quiet_cycle urls st) = timers st + List.length urls /\
  clients (fold_left quiet_cycle urls st)
    = map (delivered (indexedUrls st) urls) (clients st) /\
  (forall s u, timers s <= timers (broadcast u s)) /\
  (forall s, timers (drainTick s) = timers s).
Proof.
  intros Hq Hb. split; [now apply quiet_cycles_timers|]. split; [|split].
  - revert st Hq Hb. induction urls as [|u urls IH]; intros st Hq Hb;
      cbn [fold_left].
    + rewrite (map_ext _ (fun c => c)) by (intros; apply delivered_nil).
      now rewrite map_id.
    + destruct (quiet_cycle_idle st u Hq Hb) as (Hq' & Hb' & _).
      rewrite (IH _ Hq' Hb').
      assert (Hi : indexedUrls (quiet_cycle st u) = indexedUrls st).
      { unfold quiet_cycle.
        destruct (ticks_spec 2 (broadcast u st)) as (_ & Hi & _).
        cbn [ticks] in Hi. rewrite Hi.
        apply (broadcast_frame u st). }
      assert (Hc : clients (quiet_cycle st u)
                   = map (delivered (indexedUrls st) [u]) (clients st)).
      { unfold quiet_cycle.
        destruct (ticks_spec 2 (broadcast u st)) as (_ & _ & Hc).
        cbn [ticks] in Hc. rewrite Hc, broadcast_queue, Hq.
        destruct (broadcast_frame u st) as (-> & _ & -> & _). reflexivity. }
      rewrite Hi, Hc, map_map. apply map_ext. intros c.
      unfold delivered. destruct (is_open (readyState c)) eqn:E; cbn.
      * rewrite E. cbn. now rewrite <- app_assoc.
      * now rewrite E.
  - intros s u. unfold broadcast. cbn.
    destruct (isBroadcasting s); cbn; lia.
  - intros s. unfold drainTick. now destruct (broadcastQueue s).
Qed.

Lemma intervals_pile_up_witness :
  broadcastQueue (initial None) = [] /\
  timers (fold_left quiet_cycle [seed; page_a; page_b] (initial None)) = 3.
Proof.
  split; [reflexivity|].
  apply (intervals_pile_up (initial None) [seed; page_a; page_b]);
    reflexivity.
Defined.

(** *** What start-up queues *)

Lemma broadcast_all_timers (urls : list string) : forall st,
  timers st <= 1 -> (isBroadcasting st = false -> timers st = 0) ->
  timers (broadcast_all urls st) <= 1.
Proof.
  induction urls as [|u urls IH]; intros st H1 H2; [exact H1|].
  cbn [broadcast_all fold_left]. fold (broadcast_all urls (broadcast u st)).
  apply IH.
  - unfold broadcast. cbn. destruct (isBroadcasting st) eqn:E; cbn; [exact H1|].
    rewrite (H2 eq_refl). lia.
  - unfold broadcast. cbn. destruct (isBroadcasting st) eqn:E; cbn;
      intros H; rewrite ?E in H; discriminate H.
Qed.

Lemma broadcast_all_crawl_frame (urls : list string) : forall st,
  pending (broadcast_all urls st) = pending st /\
  visited (broadcast_all urls st) = visited st.
Proof.
  induction urls as [|u urls IH]; intros st; [now split|].
  cbn [broadcast_all fold_left]. fold (broadcast_all urls (broadcast u st)).
  destruct (IH (broadcast u st)) as [-> ->].
  destruct (broadcast_frame u st) as (_ & _ & _ & -> & -> & _).
  now split.
Qed.

Lemma loaded_state (disk : option string) (idx : Index) :
  let s := broadcast_all (firstn 100 (Obj.keys idx))
             (log LogDataLoaded (set_index idx (initial disk))) in
  broadcastQueue s = firstn 100 (Obj.keys (indexedUrls s)) /\
  List.length (broadcastQueue s) = Nat.min 100 (List.length (indexedUrls s)) /\
  timers s <= 1 /\ clients s = [] /\ pending s = [] /\ visited s = [].
Proof.
  intros s.
  destruct (broadcast_all_queue (firstn 100 (Obj.keys idx))
              (log LogDataLoaded (set_index idx (initial disk))))
    as (Hq & Hi & _ & Hc).
  destruct (broadcast_all_crawl_frame (firstn 100 (Obj.keys idx))
              (log LogDataLoaded (set_index idx (initial disk))))
    as (Hp & Hv).
  fold s in Hq, Hi, Hc, Hp, Hv. rewrite Hq, Hi, Hc, Hp, Hv.
  cbn [initial log set_index broadcastQueue indexedUrls clients pending
       visited app].
  split; [reflexivity|]. split.
  { rewrite length_firstn. unfold Obj.keys. now rewrite length_map. }
  split; [apply broadcast_all_timers; cbn; auto|].
  repeat split.
Qed.

Lemma startup_load_shape (disk : option string) (st : State) :
  startup_load (initial disk) = Some st ->
  broadcastQueue st = firstn 100 (Obj.keys (indexedUrls st)) /\
  List.length (broadcastQueue st)
    = Nat.min 100 (List.length (indexedUrls st)) /\
  timers st <= 1 /\
  clients st = [] /\ pending st = [] /\ visited st = [].
Proof.
  unfold startup_load. cbn [data_json initial].
  destruct disk as [raw|].
  2:{ intros [= <-]. cbn. repeat split; lia. }
  destruct (JSON.parse raw) as [v|].
  2:{ intros [= <-]. cbn. repeat split; lia. }
  destruct v as [|b|n|x|l|o]; try (intros [= <-]; cbn; repeat split; lia);
    destruct (JSON.index_of_value _) as [idx|]; try discriminate;
    intros [= <-]; apply loaded_state.
Qed.



(** *** Closing a socket *)

Lemma remove_client_absent (id : nat) (cs : list Client) :
  (forall c, In c cs -> cid c <> id) -> remove_client id cs = cs.
Proof.
  induction cs as [|c cs IH]; intros H; cbn [remove_client]; [reflexivity|].
  destruct (Nat.eqb (cid c) id) eqn:E.
  - apply Nat.eqb_eq in E. exfalso. apply (H c); [now left | exact E].
  - rewrite IH; [reflexivity|]. intros x Hx. apply H. now right.
Qed.

Lemma remove_client_first (id : nat) (before : list Client) (c : Client)
    (after : list Client) :
  (forall x, In x before -> cid x <> id) -> cid c = id ->
  remove_client id (before ++ c :: after) = before ++ after.
Proof.
  intros Hb Hc. induction before as [|b before IH]; cbn [app remove_client].
  - apply Nat.eqb_eq in Hc. now rewrite Hc.
  - assert (E : Nat.eqb (cid b) id = false).
    { apply Nat.eqb_neq. apply Hb. now left. }
    rewrite E, IH; [reflexivity|]. intros x Hx. apply Hb. now right.
Qed.

(** X5. The [close] handler takes exactly the closed socket out of
    [clients]: the first entry with that identity goes, every other viewer
    keeps its place and what was sent to it; closing a socket that is not
    in the list changes nothing but the console.  The index and the queue
    are not touched. *)
Theorem on_close_removes_one (id : nat) (st : State) :
  ((forall c, In c (clients st) -> cid c <> id) ->
   clients (on_close id st) = clients st) /\
  (forall before c after,
     clients st = before ++ c :: after -> cid c = id ->
     (forall x, In x before -> cid x <> id) ->
     clients (on_close id st) = before ++ after /\
     List.length (clients (on_close id st)) + 1
       = List.length (clients st)) /\
  indexedUrls (on_close id st) = indexedUrls st /\
  broadcastQueue (on_close id st) = broadcastQueue st /\
  pending (on_close id st) = pending st.
Proof.
  unfold on_close. cbn [clients log set_clients indexedUrls broadcastQueue
                        pending].
  split; [apply remove_client_absent|]. split; [|repeat split].
  intros before c after Heq Hc Hb. rewrite Heq.
  rewrite remove_client_first by assumption.
  split; [reflexivity|]. rewrite !length_app. cbn [length]. lia.
Qed.

(** *** What one answered fetch changes *)

Lemma crawl_cases (l : string) (d : nat) (s : State) :
  crawl l d s = s \/
  (d <> 0 /\ ~ In l (visited s) /\
   crawl l d s
   = set_pending (pending s ++ [(l, d)])
       (log (LogCrawling l) (set_visited (visited s ++ [l]) s))).
Proof.
  unfold crawl. destruct (Nat.eqb d 0) eqn:Ed; [now left|].
  destruct (includes (visited s) l) eqn:Ev; [now left|].
  right. split; [now apply Nat.eqb_neq|]. split; [|reflexivity].
  intros H. apply includes_In in H. congruence.
Qed.

Lemma crawl_queue (l : string) (d : nat) (s : State) :
  broadcastQueue (crawl l d s) = broadcastQueue s /\
  isBroadcasting (crawl l d s) = isBroadcasting s /\
  timers (crawl l d s) = timers s.
Proof.
  destruct (crawl_cases l d s) as [-> | (_ & _ & ->)]; repeat split.
Qed.

Lemma crawl_all_queue (d : nat) (found : list string) : forall s,
  broadcastQueue (fold_left (fun s link => crawl link d s) found s)
    = broadcastQueue s /\
  isBroadcasting (fold_left (fun s link => crawl link d s) found s)
    = isBroadcasting s /\
  timers (fold_left (fun s link => crawl link d s) found s) = timers s.
Proof.
  induction found as [|l found IH]; intros s; cbn [fold_left];
    [repeat split|].
  destruct (IH (crawl l d s)) as (-> & -> & ->). apply crawl_queue.
Qed.

Lemma get_set_other {A} (o : list (string * A)) (k u : string) (v : A) :
  u <> k -> Obj.get (Obj.set o k v) u = Obj.get o u.
Proof.
  intros Hne. induction o as [|[k' v'] o IH]; cbn [Obj.set Obj.get].
  - apply String.eqb_neq in Hne. rewrite String.eqb_sym in Hne.
    now rewrite Hne.
  - destruct (String.eqb k' k) eqn:E; cbn [Obj.get].
    + apply String.eqb_eq in E. subst k'.
      apply String.eqb_neq in Hne. rewrite String.eqb_sym in Hne.
      now rewrite Hne.
    + now rewrite IH.
Qed.

Lemma keys_set_present {A} (o : list (string * A)) (k : string) (v : A) :
  In k (Obj.keys o) -> Obj.keys (Obj.set o k v) = Obj.keys o.
Proof.
  intros H. destruct (keys_set o k v) as [E | [Hn _]];
    [exact E | contradiction].
Qed.

Lemma keys_set_absent {A} (o : list (string * A)) (k : string) (v : A) :
  ~ In k (Obj.keys o) -> Obj.keys (Obj.set o k v) = Obj.keys o ++ [k].
Proof.
  intros H. rewrite set_fresh by assumption.
  unfold Obj.keys. now rewrite map_app.
Qed.

Lemma crawl_try_steps (url : string) (depth : nat) (t : string)
    (anchors : list (option string)) (w : bool) (s : State) :
  crawl_try url depth (FetchOk t anchors) w s
  = Normal (after_record url depth (extract_links anchors) w
              (set_index (crawled_index (indexedUrls s) url t anchors) s)).
Proof. reflexivity. Qed.

Lemma save_frame (w : bool) (s : State) :
  indexedUrls (save w s) = indexedUrls s /\
  clients (save w s) = clients s /\
  broadcastQueue (save w s) = broadcastQueue s /\
  isBroadcasting (save w s) = isBroadcasting s /\
  timers (save w s) = timers s /\
  visited (save w s) = visited s /\
  pending (save w s) = pending s /\
  data_json (save w s)
    = if w then Some (JSON.stringify (indexedUrls s)) else data_json s.
Proof. unfold save. destruct w; repeat split. Qed.

Lemma after_record_frame (url : string) (depth : nat) (found : list string)
    (w : bool) (s : State) :
  indexedUrls (after_record url depth found w s) = indexedUrls s /\
  clients (after_record url depth found w s) = clients s /\
  broadcastQueue (after_record url depth found w s)
    = broadcastQueue s ++ [url] /\
  data_json (after_record url depth found w s)
    = if w then Some (JSON.stringify (indexedUrls s)) else data_json s.
Proof.
  unfold after_record.
  pose proof (crawl_all_core (depth - 1) found
                (broadcast url
                   (save w (log (LogIndexed url (List.length found)) s))))
    as Hc.
  rewrite broadcast_core in Hc. unfold core in Hc.
  injection Hc as Hi Hd Hcl.
  destruct (crawl_all_queue (depth - 1) found
              (broadcast url
                 (save w (log (LogIndexed url (List.length found)) s))))
    as (Hq & _).
  rewrite Hi, Hd, Hcl, Hq, broadcast_queue.
  destruct (save_frame w (log (LogIndexed url (List.length found)) s))
    as (-> & -> & -> & _ & _ & _ & _ & ->).
  repeat split.
Qed.

(** X6. A fetch that succeeds writes one record and touches no other: the
    record of the URL becomes the page's title (or [No title] when the
    page has none), the links kept by the filter and rank 0, replacing
    whatever record the URL had (its rank included); every other URL keeps
    its record.  A URL that had a record keeps its place among the keys, a
    new one goes last; and the URL is queued for delivery. *)
Theorem crawl_writes_own_record (url : string) (depth : nat) (t : string)
    (anchors : list (option string)) (w : bool) (st : State) :
  exists st',
    crawl_try url depth (FetchOk t anchors) w st = Normal st' /\
    Obj.get (indexedUrls st') url
      = Some (mkPage (if String.eqb t "" then "No title" else t)
                (extract_links anchors) 0) /\
    (forall u, u <> url ->
       Obj.get (indexedUrls st') u = Obj.get (indexedUrls st) u) /\
    (In url (Obj.keys (indexedUrls st)) ->
     Obj.keys (indexedUrls st') = Obj.keys (indexedUrls st)) /\
    (~ In url (Obj.keys (indexedUrls st)) ->
     Obj.keys (indexedUrls st') = Obj.keys (indexedUrls st) ++ [url]) /\
    broadcastQueue st' = broadcastQueue st ++ [url].
Proof.
  rewrite crawl_try_steps. eexists. split; [reflexivity|].
  destruct (after_record_frame url depth (extract_links anchors) w
              (set_index (crawled_index (indexedUrls st) url t anchors) st))
    as (Hi & _ & Hq & _).
  rewrite Hi, Hq. cbn [indexedUrls broadcastQueue set_index].
  unfold crawled_index.
  split; [now rewrite get_update, get_set_same, String.eqb_refl|].
  split.
  { intros u Hu. rewrite get_update, get_set_other by assumption.
    apply String.eqb_neq in Hu. rewrite Hu. now destruct (Obj.get _ u). }
  rewrite keys_update.
  split; [apply keys_set_present|]. split; [apply keys_set_absent | reflexivity].
Qed.

(** *** A write to disk that fails *)








(** *** Along an execution *)

Lemma fetch_event (i : nat) (resp : Response) (w : bool) (st st' : State) :
  apply_event (FetchDone i resp w) st = Some st' ->
  exists url depth,
    nth_error (pending st) i = Some (url, depth) /\
    st' = crawl_resume url depth resp w
            (set_pending (remove_nth i (pending st)) st).
Proof.
  cbn [apply_event].
  destruct (nth_error (pending st) i) as [[url depth]|]; [|discriminate].
  intros [= <-]. now exists url, depth.
Qed.

Lemma nth_error_remove {A} (l : list A) : forall i x,
  nth_error l i = Some x ->
  exists before after,
    l = before ++ x :: after /\ remove_nth i l = before ++ after.
Proof.
  induction l as [|a l IH]; intros [|i] x H; cbn in H; try discriminate.
  - injection H as <-. now exists [], l.
  - destruct (IH i x H) as (before & after & -> & Hr).
    exists (a :: before), after. cbn. now rewrite Hr.
Qed.

(** The events that neither answer a fetch nor restart the process leave
    the crawler's bookkeeping and the keys of the index alone. *)
Lemma quiet_event (e : Event) (st st' : State) :
  apply_event e st = Some st' ->
  is_reboot e = false ->
  (forall i resp w, e <> FetchDone i resp w) ->
  visited st' = visited st /\ pending st' = pending st /\
  Obj.keys (indexedUrls st') = Obj.keys (indexedUrls st).
Proof.
  intros H Hr Hf.
  destruct e as [i resp w| | |id rs|id|id rs|]; cbn [apply_event] in H.
  - exfalso. now apply (Hf i resp w).
  - destruct (Nat.ltb 0 (timers st)); [|discriminate]. injection H as <-.
    unfold drainTick. destruct (broadcastQueue st); repeat split.
  - unfold rank_tick in H. rewrite recalculateRanks_closed in H.
    injection H as <-. cbn. repeat split. apply keys_ranked.
  - injection H as <-. repeat split.
  - injection H as <-. repeat split.
  - injection H as <-. repeat split.
  - discriminate Hr.
Qed.

Lemma keys_crawled_index (idx : Index) (url t : string)
    (anchors : list (option string)) :
  exists more, Obj.keys (crawled_index idx url t anchors)
               = Obj.keys idx ++ more.
Proof.
  unfold crawled_index. rewrite keys_update.
  destruct (keys_set idx url
              (mkPage (if String.eqb t "" then "No title" else t) [] 0))
    as [-> | [_ ->]].
  - exists []. now rewrite app_nil_r.
  - now exists [url].
Qed.

Lemma crawl_visited_grows (l : string) (d : nat) (s : State) :
  exists more, visited (crawl l d s) = visited s ++ more.
Proof.
  destruct (crawl_cases l d s) as [-> | (_ & _ & ->)].
  - exists []. now rewrite app_nil_r.
  - now exists [l].
Qed.

Lemma crawl_all_visited_grows (d : nat) (found : list string) : forall s,
  exists more,
    visited (fold_left (fun s link => crawl link d s) found s)
    = visited s ++ more.
Proof.
  induction found as [|l found IH]; intros s; cbn [fold_left].
  - exists []. now rewrite app_nil_r.
  - destruct (IH (crawl l d s)) as [m1 ->].
    destruct (crawl_visited_grows l d s) as [m2 ->].
    exists (m2 ++ m1). now rewrite app_assoc.
Qed.

Lemma event_grows (e : Event) (st st' : State) :
  is_reboot e = false -> apply_event e st = Some st' ->
  (exists more, Obj.keys (indexedUrls st')
                = Obj.keys (indexedUrls st) ++ more) /\
  (exists more, visited st' = visited st ++ more).
Proof.
  intros Hr H.
  assert (Hrefl : forall A (l : list A), exists more, l = l ++ more)
    by (intros A l; exists []; now rewrite app_nil_r).
  destruct e as [i resp w| | |id rs|id|id rs|];
    try (destruct (quiet_event _ st st' H eq_refl
                     ltac:(intros; discriminate)) as (-> & _ & ->);
         split; apply Hrefl);
    [|discriminate Hr].
  destruct (fetch_event i resp w st st' H) as (url & depth & _ & ->).
  unfold crawl_resume. destruct resp as [t anchors|message].
  - rewrite crawl_try_steps.
    destruct (after_record_frame url depth (extract_links anchors) w
                (set_index
                   (crawled_index
                      (indexedUrls
                         (set_pending (remove_nth i (pending st)) st))
                      url t anchors)
                   (set_pending (remove_nth i (pending st)) st)))
      as (-> & _).
    split; [apply keys_crawled_index|].
    unfold after_record.
    match goal with
    | |- exists more, visited (fold_left ?f ?l ?x) = _ =>
        destruct (crawl_all_visited_grows (depth - 1) l x) as [m ->]
    end.
    destruct (broadcast_frame url
                (save w
                   (log (LogIndexed url
                           (List.length (extract_links anchors)))
                      (set_index
                         (crawled_index
                            (indexedUrls
                               (set_pending (remove_nth i (pending st)) st))
                            url t anchors)
                         (set_pending (remove_nth i (pending st)) st)))))
      as (_ & _ & _ & -> & _).
    destruct (save_frame w
                (log (LogIndexed url
                        (List.length (extract_links anchors)))
                   (set_index
                      (crawled_index
                         (indexedUrls
                            (set_pending (remove_nth i (pending st)) st))
                         url t anchors)
                      (set_pending (remove_nth i (pending st)) st))))
      as (_ & _ & _ & _ & _ & -> & _).
    now exists m.
  - split; apply Hrefl.
Qed.

Lemma run_grows (events : list Event) : forall st st',
  one_process events -> run events st = Some st' ->
  (exists more, Obj.keys (indexedUrls st')
                = Obj.keys (indexedUrls st) ++ more) /\
  (exists more, visited st' = visited st ++ more).
Proof.
  induction events as [|e events IH]; intros st st' Hone H; cbn [run] in H.
  - injection H as <-. split; exists []; now rewrite app_nil_r.
  - destruct (apply_event e st) as [s1|] eqn:E; [|discriminate].
    unfold one_process in Hone. cbn [forallb] in Hone.
    apply andb_true_iff in Hone as [He Hrest].
    apply negb_true_iff in He.
    destruct (event_grows e st s1 He E) as ([k1 Hk1] & [v1 Hv1]).
    destruct (IH s1 st' Hrest H) as ([k2 Hk2] & [v2 Hv2]).
    split.
    + exists (k1 ++ k2). now rewrite Hk2, Hk1, app_assoc.
    + exists (v1 ++ v2). now rewrite Hv2, Hv1, app_assoc.
Qed.

(** X8. Within one run of the process nothing is ever taken out of the
    index or of the visited set: along any execution without a restart
    the keys of the index and the visited URLs only get longer, at the
    end, so a URL that has a page record keeps one. *)
Theorem index_only_grows (events : list Event) (st st' : State) :
  one_process events -> run events st = Some st' ->
  (exists more, Obj.keys (indexedUrls st')
                = Obj.keys (indexedUrls st) ++ more) /\
  (exists more, visited st' = visited st ++ more) /\
  (forall u p, Obj.get (indexedUrls st) u = Some p ->
     exists p', Obj.get (indexedUrls st') u = Some p').
Proof.
  intros Hone H. destruct (run_grows events st st' Hone H) as (Hk & Hv).
  split; [exact Hk|]. split; [exact Hv|].
  intros u p Hp. destruct Hk as [more Hk].
  apply get_In_keys. rewrite Hk. apply in_or_app. left.
  apply get_Some_In in Hp. unfold Obj.keys.
  change u with (fst (u, p)). now apply in_map.
Qed.

Lemma index_only_grows_witness :
  exists st,
    run loop_events boot = Some st /\
    exists more, visited st = visited boot ++ more.
Proof.
  eexists. split; [vm_compute; reflexivity|].
  apply (index_only_grows loop_events boot);
    [reflexivity | vm_compute; reflexivity].
Defined.

(** *** Messages always carry a record *)

Lemma main_shape (disk : option string) (st : State) :
  main disk = Some st ->
  incl (broadcastQueue st) (Obj.keys (indexedUrls st)) /\
  clients st = [] /\ visited st = [seed] /\ pending st = [(seed, 5)].
Proof.
  unfold main. destruct (startup_load (initial disk)) as [s1|] eqn:E;
    [|discriminate].
  intros [= <-].
  destruct (startup_load_shape disk s1 E) as (Hq & _ & _ & Hc & Hp & Hv).
  unfold crawl. cbn [Nat.eqb]. rewrite Hv. cbn [includes existsb].
  cbn [broadcastQueue indexedUrls clients visited pending set_pending log
       set_visited app].
  rewrite Hq, Hc, Hp. repeat split.
  intros u Hu. rewrite <- (firstn_skipn 100 (Obj.keys (indexedUrls s1))).
  apply in_or_app. now left.
Qed.










(** *** Every URL is fetched once *)

Lemma crawl_dispatched (done : list string) (l : string) (d : nat)
    (s : State) :
  dispatched_once done s -> dispatched_once done (crawl l d s).
Proof.
  intros (Hnd & Hin).
  destruct (crawl_cases l d s) as [-> | (_ & Hv & ->)]; [now split|].
  unfold dispatched_once. cbn [pending visited set_pending log set_visited].
  rewrite map_app, app_assoc. cbn [map fst]. split.
  - apply NoDup_app; [exact Hnd | repeat constructor; simpl; tauto|].
    intros x Hx [<- | []]. apply Hv. now apply Hin.
  - intros x Hx. apply in_or_app.
    apply in_app_or in Hx as [Hx | Hx]; [left; now apply Hin | now right].
Qed.

Lemma crawl_all_dispatched (done : list string) (d : nat)
    (found : list string) : forall s,
  dispatched_once done s ->
  dispatched_once done (fold_left (fun s link => crawl link d s) found s).
Proof.
  induction found as [|l found IH]; intros s H; cbn [fold_left]; [exact H|].
  apply IH. now apply crawl_dispatched.
Qed.

Lemma dispatched_frame (done : list string) (s s' : State) :
  visited s' = visited s -> pending s' = pending s ->
  dispatched_once done s -> dispatched_once done s'.
Proof. unfold dispatched_once. now intros -> ->. Qed.

Lemma resume_dispatched (done : list string) (url : string) (depth : nat)
    (resp : Response) (w : bool) (s : State) :
  dispatched_once done s ->
  dispatched_once done (crawl_resume url depth resp w s).
Proof.
  intros H. unfold crawl_resume. destruct resp as [t anchors|message].
  - rewrite crawl_try_steps. unfold after_record.
    apply crawl_all_dispatched.
    eapply dispatched_frame; [| |exact H].
    + destruct (broadcast_frame url
        (save w
           (log (LogIndexed url (List.length (extract_links anchors)))
              (set_index (crawled_index (indexedUrls s) url t anchors) s))))
        as (_ & _ & _ & -> & _).
      now destruct w.
    + destruct (broadcast_frame url
        (save w
           (log (LogIndexed url (List.length (extract_links anchors)))
              (set_index (crawled_index (indexedUrls s) url t anchors) s))))
        as (_ & _ & _ & _ & -> & _).
      now destruct w.
  - exact H.
Qed.

Lemma event_dispatched (done : list string) (e : Event) (st st' : State) :
  is_reboot e = false ->
  dispatched_once done st -> apply_event e st = Some st' ->
  dispatched_once (done ++ answered_by e st) st'.
Proof.
  intros Hr Hd H.
  destruct e as [i resp w| | |id rs|id|id rs|];
    try (destruct (quiet_event _ st st' H eq_refl
                     ltac:(intros; discriminate)) as (Hv & Hp & _);
         cbn [answered_by]; rewrite app_nil_r;
         now apply (dispatched_frame done st st' Hv Hp));
    [|discriminate Hr].
  destruct (fetch_event i resp w st st' H) as (url & depth & Hn & ->).
  cbn [answered_by]. rewrite Hn.
  apply resume_dispatched.
  destruct (nth_error_remove (pending st) i (url, depth) Hn)
    as (before & after & Hb & Ha).
  destruct Hd as (Hnd & Hin).
  unfold dispatched_once. cbn [pending visited set_pending]. rewrite Ha.
  rewrite Hb in Hnd, Hin. rewrite map_app in *. cbn [map fst] in *.
  assert (Hperm : Permutation
            (done ++ map fst before ++ url :: map fst after)
            ((done ++ [url]) ++ map fst before ++ map fst after)).
  { rewrite <- app_assoc. apply Permutation_app_head. cbn [app].
    symmetry. apply Permutation_middle. }
  split.
  - apply (Permutation_NoDup Hperm Hnd).
  - intros x Hx. apply Hin.
    apply (Permutation_in x (Permutation_sym Hperm) Hx).
Qed.

Lemma run_dispatched (events : list Event) : forall done st st',
  one_process events ->
  dispatched_once done st -> run events st = Some st' ->
  dispatched_once (done ++ answered events st) st'.
Proof.
  induction events as [|e events IH]; intros done st st' Hone Hd H;
    cbn [run answered] in *.
  - injection H as <-. now rewrite app_nil_r.
  - destruct (apply_event e st) as [s1|] eqn:E; [|discriminate].
    unfold one_process in Hone. cbn [forallb] in Hone.
    apply andb_true_iff in Hone as [He Hrest].
    apply negb_true_iff in He.
    rewrite app_assoc. apply IH; [exact Hrest| |exact H].
    now apply (event_dispatched done e st).
Qed.

(** X10. Within one run of the process no URL is fetched twice: the
    fetches answered along an execution are for pairwise distinct URLs,
    none of them is in flight again afterwards, the fetches in flight are
    for distinct URLs too, and all of these URLs are marked visited. *)
Theorem each_url_fetched_once (disk : option string) (events : list Event)
    (st0 st : State) :
  main disk = Some st0 -> one_process events ->
  run events st0 = Some st ->
  NoDup (answered events st0) /\
  NoDup (map fst (pending st)) /\
  (forall u, In u (answered events st0) ->
     In u (visited st) /\ ~ In u (map fst (pending st))) /\
  (forall u, In u (map fst (pending st)) -> In u (visited st)).
Proof.
  intros Hm Hone Hr.
  assert (H0 : dispatched_once [] st0).
  { destruct (main_shape disk st0 Hm) as (_ & _ & Hv & Hp).
    unfold dispatched_once. rewrite Hv, Hp. cbn.
    split; [repeat constructor; simpl; tauto | apply incl_refl]. }
  destruct (run_dispatched events [] st0 st Hone H0 Hr) as (Hnd & Hin).
  cbn [app] in Hnd, Hin.
  split; [now apply NoDup_app_remove_r in Hnd|].
  split; [now apply NoDup_app_remove_l in Hnd|].
  split.
  - intros u Hu. split; [apply Hin, in_or_app; now left|].
    intros Hp. revert Hnd Hu Hp. clear.
    generalize (answered events st0) as a, (map fst (pending st)) as b.
    induction a as [|x a IH]; intros b Hnd Hu Hp; [contradiction|].
    cbn [app] in Hnd. apply NoDup_cons_iff in Hnd as [Hx Hnd].
    destruct Hu as [-> | Hu].
    + apply Hx, in_or_app. now right.
    + now apply (IH b).
  - intros u Hu. apply Hin, in_or_app. now right.
Qed.

Lemma each_url_fetched_once_witness :
  exists st,
    run loop_events boot = Some st /\ NoDup (answered loop_events boot).
Proof.
  eexists. split; [vm_compute; reflexivity|].
  eapply (fun st H => proj1 (each_url_fetched_once None loop_events boot st
                               eq_refl eq_refl H)).
  vm_compute. reflexivity.
Defined.

(** *** How deep the crawl goes *)

Lemma crawl_depth (l : string) (d : nat) (s : State) :
  d <= 5 -> depth_in_range s -> depth_in_range (crawl l d s).
Proof.
  intros Hd H. destruct (crawl_cases l d s) as [-> | (Hz & _ & ->)];
    [exact H|].
  unfold depth_in_range. cbn [pending set_pending].
  apply Forall_app. split; [exact H|]. constructor; [cbn; lia | constructor].
Qed.

Lemma crawl_all_depth (d : nat) (found : list string) : forall s,
  d <= 5 -> depth_in_range s ->
  depth_in_range (fold_left (fun s link => crawl link d s) found s).
Proof.
  induction found as [|l found IH]; intros s Hd H; cbn [fold_left];
    [exact H|].
  apply IH; [exact Hd | now apply crawl_depth].
Qed.

Lemma crawl_all_zero (found : list string) : forall s,
  fold_left (fun s link => crawl link 0 s) found s = s.
Proof. induction found as [|l found IH]; intros s; cbn; auto. Qed.

Lemma resume_crawl_frame (url : string) (depth : nat) (t : string)
    (anchors : list (option string)) (w : bool) (s : State) :
  let s0 := broadcast url
              (save w
                 (log (LogIndexed url (List.length (extract_links anchors)))
                    (set_index
                       (crawled_index (indexedUrls s) url t anchors) s))) in
  pending s0 = pending s /\ visited s0 = visited s.
Proof.
  intros s0. subst s0.
  destruct (broadcast_frame url
    (save w
       (log (LogIndexed url (List.length (extract_links anchors)))
          (set_index (crawled_index (indexedUrls s) url t anchors) s))))
    as (_ & _ & _ & -> & -> & _).
  now destruct w.
Qed.

Lemma event_depth (e : Event) (st st' : State) :
  depth_in_range st -> apply_event e st = Some st' -> depth_in_range st'.
Proof.
  intros Hd H.
  destruct e as [i resp w| | |id rs|id|id rs|];
    try (destruct (quiet_event _ st st' H eq_refl
                     ltac:(intros; discriminate)) as (_ & Hp & _);
         unfold depth_in_range; now rewrite Hp).
  - destruct (fetch_event i resp w st st' H) as (url & depth & Hn & ->).
    assert (Hrange : 1 <= depth <= 5).
    { unfold depth_in_range in Hd. rewrite Forall_forall in Hd.
      apply (Hd (url, depth)). now apply nth_error_In in Hn. }
    assert (Hrest : depth_in_range
                      (set_pending (remove_nth i (pending st)) st)).
    { destruct (nth_error_remove (pending st) i (url, depth) Hn)
        as (before & after & Hb & Ha).
      unfold depth_in_range in *. cbn [pending set_pending].
      rewrite Ha. rewrite Hb in Hd.
      apply Forall_app in Hd as [H1 H2]. apply Forall_app. split; [exact H1|].
      now inversion H2. }
    unfold crawl_resume. destruct resp as [t anchors|message]; [|exact Hrest].
    rewrite crawl_try_steps. unfold after_record.
    apply crawl_all_depth; [lia|].
    destruct (resume_crawl_frame url depth t anchors w
                (set_pending (remove_nth i (pending st)) st)) as (Hp & _).
    unfold depth_in_range. rewrite Hp. exact Hrest.
  - cbn [apply_event] in H. destruct (main_shape _ _ H) as (_ & _ & _ & Hp).
    unfold depth_in_range. rewrite Hp. constructor; [cbn; lia | constructor].
Qed.

Lemma run_depth (events : list Event) : forall st st',
  depth_in_range st -> run events st = Some st' -> depth_in_range st'.
Proof.
  induction events as [|e events IH]; intros st st' Hd H; cbn [run] in H.
  - now injection H as <-.
  - destruct (apply_event e st) as [s1|] eqn:E; [|discriminate].
    apply (IH s1); [|exact H]. now apply (event_depth e st).
Qed.

(** X11. The crawl never goes deeper than the depth it is started with:
    every fetch in flight has a remaining depth between 1 and 5, a link
    found on a page fetched at depth d is fetched at depth d - 1, and the
    links of a page fetched at depth 1 are not followed at all (they are
    not even marked visited). *)
Theorem crawl_depth_bounded (disk : option string) (events : list Event)
    (st0 st : State) :
  main disk = Some st0 -> run events st0 = Some st ->
  (forall u d, In (u, d) (pending st) -> 1 <= d <= 5) /\
  (forall i url depth t anchors w st',
     nth_error (pending st) i = Some (url, depth) ->
     apply_event (FetchDone i (FetchOk t anchors) w) st = Some st' ->
     forall u d, In (u, d) (pending st') ->
       In (u, d) (pending st) \/
       (d = depth - 1 /\ In u (extract_links anchors))) /\
  (forall url resp w s,
     pending (crawl_resume url 1 resp w s) = pending s /\
     visited (crawl_resume url 1 resp w s) = visited s).
Proof.
  intros Hm Hr.
  assert (H0 : depth_in_range st0).
  { destruct (main_shape disk st0 Hm) as (_ & _ & _ & Hp).
    unfold depth_in_range. rewrite Hp. constructor; [cbn; lia | constructor]. }
  pose proof (run_depth events st0 st H0 Hr) as Hd.
  split; [|split].
  - intros u d Hin. unfold depth_in_range in Hd. rewrite Forall_forall in Hd.
    apply (Hd (u, d) Hin).
  - intros i url depth t anchors w st' Hn H u d Hin.
    cbn [apply_event] in H. rewrite Hn in H. injection H as <-.
    unfold crawl_resume in Hin. rewrite crawl_try_steps in Hin.
    unfold after_record in Hin.
    destruct (resume_crawl_frame url depth t anchors w
                (set_pending (remove_nth i (pending st)) st)) as (Hp & _).
    cbn zeta in Hp.
    assert (G : forall found s,
      In (u, d) (pending (fold_left
                   (fun s link => crawl link (depth - 1) s) found s)) ->
      In (u, d) (pending s) \/ (d = depth - 1 /\ In u found)).
    { clear. induction found as [|l found IH]; intros s Hin;
        cbn [fold_left] in Hin; [now left|].
      destruct (IH _ Hin) as [Hs | [Hd Hf]]; [|right; split; [exact Hd|now right]].
      destruct (crawl_cases l (depth - 1) s) as [E | (_ & _ & E)];
        rewrite E in Hs; [now left|].
      cbn [pending set_pending] in Hs.
      apply in_app_or in Hs as [Hs | [[= <- <-] | []]]; [now left|].
      right. split; [reflexivity | now left]. }
    destruct (G _ _ Hin) as [Hs | Hs]; [|now right]. left.
    rewrite Hp in Hs. cbn [pending set_pending] in Hs.
    destruct (nth_error_remove (pending st) i (url, depth) Hn)
      as (before & after & Hb & Ha).
    rewrite Ha in Hs. rewrite Hb.
    apply in_or_app. apply in_app_or in Hs as [Hs | Hs];
      [now left | right; now right].
  - intros url resp w s. unfold crawl_resume.
    destruct resp as [t anchors|message]; [|now split].
    rewrite crawl_try_steps. unfold after_record. cbn [Nat.sub].
    rewrite crawl_all_zero.
    apply (resume_crawl_frame url 1 t anchors w s).
Qed.

Lemma crawl_depth_bounded_witness :
  exists st,
    run loop_events boot = Some st /\
    forall u d, In (u, d) (pending st) -> 1 <= d <= 5.
Proof.
  eexists. split; [vm_compute; reflexivity|].
  eapply (fun st H => proj1 (crawl_depth_bounded None loop_events boot st
                               eq_refl H)).
  vm_compute. reflexivity.
Defined.

(** *** Crawl, save, restart *)

Lemma startup_load_stringify (idx : Index) :
  NoDup (Obj.keys idx) ->
  startup_load (initial (Some (JSON.stringify idx)))
  = Some (broadcast_all (firstn 100 (Obj.keys idx))
            (log LogDataLoaded
               (set_index idx (initial (Some (JSON.stringify idx)))))).
Proof.
  intros Hnd. unfold startup_load. cbn [data_json initial].
  rewrite (parse_stringify _ Hnd).
  unfold JSON.value_of_index at 1. fold (JSON.value_of_index idx).
  now rewrite index_of_value_of_index.
Qed.

(** X12. After a fetch has succeeded and its write to [data.json] has
    gone through, a restart of the process comes back with exactly the
    index that was in memory: same URLs in the same order, same titles,
    links and ranks.  The fetches that were in flight are gone and the
    crawl starts again from the seed. *)
Theorem restart_reloads_saved_index (events : list Event) (st : State)
    (i : nat) (url : string) (depth : nat) (t : string)
    (anchors : list (option string)) :
  run events boot = Some st ->
  nth_error (pending st) i = Some (url, depth) ->
  exists st1 st2,
    apply_event (FetchDone i (FetchOk t anchors) true) st = Some st1 /\
    apply_event Reboot st1 = Some st2 /\
    indexedUrls st2 = indexedUrls st1 /\
    visited st2 = [seed] /\ pending st2 = [(seed, 5)] /\ clients st2 = [] /\
    broadcastQueue st2 = firstn 100 (Obj.keys (indexedUrls st1)).
Proof.
  intros Hr Hn.
  pose proof (run_invariant events boot st boot_invariant Hr) as Hinv.
  assert (H1 : apply_event (FetchDone i (FetchOk t anchors) true) st
               = Some (crawl_resume url depth (FetchOk t anchors) true
                         (set_pending (remove_nth i (pending st)) st))).
  { cbn [apply_event]. now rewrite Hn. }
  set (st1 := crawl_resume url depth (FetchOk t anchors) true
                (set_pending (remove_nth i (pending st)) st)) in *.
  pose proof (apply_event_invariant _ st st1 Hinv H1) as ((Hnd & _) & _).
  assert (Hd : data_json st1 = Some (JSON.stringify (indexedUrls st1))).
  { subst st1. unfold crawl_resume. rewrite crawl_try_steps.
    destruct (after_record_frame url depth (extract_links anchors) true
                (set_index
                   (crawled_index
                      (indexedUrls
                         (set_pending (remove_nth i (pending st)) st))
                      url t anchors)
                   (set_pending (remove_nth i (pending st)) st)))
      as (-> & _ & _ & ->). reflexivity. }
  pose proof (startup_load_stringify _ Hnd) as Hl. rewrite <- Hd in Hl.
  exists st1. eexists. split; [exact H1|].
  cbn [apply_event]. unfold main. rewrite Hl. cbn [option_map].
  split; [reflexivity|].
  destruct (loaded_state (data_json st1) (indexedUrls st1))
    as (Hq & _ & _ & Hc & Hp & Hv).
  cbn zeta in Hq, Hc, Hp, Hv.
  destruct (broadcast_all_queue (firstn 100 (Obj.keys (indexedUrls st1)))
              (log LogDataLoaded
                 (set_index (indexedUrls st1) (initial (data_json st1)))))
    as (_ & Hi & _).
  unfold crawl. cbn [Nat.eqb]. rewrite Hv. cbn [includes existsb].
  cbn [indexedUrls visited pending clients broadcastQueue set_pending log
       set_visited app].
  rewrite Hi, Hp, Hc, Hq, Hi. repeat split.
Qed.

Lemma restart_reloads_saved_index_witness :
  exists st1 st2,
    apply_event (FetchDone 0 (FetchOk "Seed" [Some page_a]) true) boot
      = Some st1 /\
    apply_event Reboot st1 = Some st2 /\
    indexedUrls st2 = indexedUrls st1.
Proof.
  destruct (restart_reloads_saved_index [] boot 0 seed 5 "Seed"
              [Some page_a] eq_refl eq_refl)
    as (st1 & st2 & H1 & H2 & H3 & _).
  now exists st1, st2.
Defined.

End Server.

(** ** Properties of the viewer's page *)

Section Viewer.

Local Open Scope string_scope.
Local Open Scope list_scope.

Variable toLowerCase : string -> string.

(** *** The page's copy of the index *)






(** *** Substrings *)

Lemma prefix_app (q s : string) :
  String.prefix q s = true <-> exists b, s = (q ++ b)%string.
Proof.
  revert s. induction q as [|a q IH]; intros s.
  - split; [intros _; now exists s | intros _; now destruct s].
  - destruct s as [|c s]; cbn [String.prefix].
    + split; [discriminate | intros [b Hb]; discriminate Hb].
    + destruct (ascii_dec a c) as [->|Hne].
      * rewrite IH. split; intros [b Hb]; exists b.
        -- cbn. now rewrite Hb.
        -- cbn in Hb. now injection Hb.
      * split; [discriminate|]. intros [b Hb]. cbn in Hb.
        injection Hb as Hac _. congruence.
Qed.

Lemma contains_substring (q s : string) :
  contains q s = true <-> exists a b, s = (a ++ q ++ b)%string.
Proof.
  induction s as [|c s IH]; cbn [contains].
  - rewrite orb_false_r, prefix_app. split.
    + intros [b Hb]. now exists EmptyString, b.
    + intros (a & b & H). destruct a as [|x a]; [now exists b|].
      discriminate H.
  - rewrite orb_true_iff, prefix_app, IH. split.
    + intros [[b Hb] | (a & b & H)].
      * now exists EmptyString, b.
      * exists (String c a), b. cbn. now rewrite H.
    + intros (a & b & H). destruct a as [|x a].
      * left. now exists b.
      * right. cbn in H. injection H as _ H. now exists a, b.
Qed.

(** *** The order of the results *)

Lemma insert_by_rank_perm (e : string * PageRecord)
    (l : list (string * PageRecord)) :
  Permutation (insert_by_rank e l) (e :: l).
Proof.
  induction l as [|y l IH]; cbn [insert_by_rank]; [reflexivity|].
  destruct (rank (snd e) <? rank (snd y))%Z; [|reflexivity].
  rewrite IH. apply perm_swap.
Qed.

Lemma sort_by_rank_perm (l : list (string * PageRecord)) :
  Permutation (sort_by_rank l) l.
Proof.
  induction l as [|e l IH]; cbn [sort_by_rank fold_right]; [reflexivity|].
  fold (sort_by_rank l). rewrite insert_by_rank_perm. now constructor.
Qed.

Lemma insert_by_rank_sorted (e : string * PageRecord)
    (l : list (string * PageRecord)) :
  StronglySorted by_rank l -> StronglySorted by_rank (insert_by_rank e l).
Proof.
  induction l as [|y l IH]; intros H; cbn [insert_by_rank].
  - repeat constructor.
  - apply StronglySorted_inv in H as [Hl Hy].
    destruct (rank (snd e) <? rank (snd y))%Z eqn:E.
    + apply Z.ltb_lt in E. constructor; [now apply IH|].
      rewrite (insert_by_rank_perm e l). constructor; [|exact Hy].
      unfold by_rank. lia.
    + apply Z.ltb_ge in E. constructor; [now constructor|].
      constructor; [exact E|].
      rewrite Forall_forall in Hy |- *. intros z Hz.
      specialize (Hy z Hz). unfold by_rank in *. lia.
Qed.

Lemma sort_by_rank_sorted (l : list (string * PageRecord)) :
  StronglySorted by_rank (sort_by_rank l).
Proof.
  induction l as [|e l IH]; cbn [sort_by_rank fold_right]; [constructor|].
  now apply insert_by_rank_sorted.
Qed.

Lemma insert_by_rank_filter (r : Z) (e : string * PageRecord)
    (l : list (string * PageRecord)) :
  filter (fun x => (rank (snd x) =? r)%Z) (insert_by_rank e l)
  = filter (fun x => (rank (snd x) =? r)%Z) (e :: l).
Proof.
  induction l as [|y l IH]; cbn [insert_by_rank]; [reflexivity|].
  destruct (rank (snd e) <? rank (snd y))%Z eqn:E; [|reflexivity].
  apply Z.ltb_lt in E. cbn [filter] in *. rewrite IH.
  destruct (rank (snd e) =? r)%Z eqn:Ee; [|reflexivity].
  apply Z.eqb_eq in Ee.
  assert (Ey : (rank (snd y) =? r)%Z = false) by (apply Z.eqb_neq; lia).
  now rewrite Ey.
Qed.

Lemma sort_by_rank_stable (r : Z) (l : list (string * PageRecord)) :
  filter (fun x => (rank (snd x) =? r)%Z) (sort_by_rank l)
  = filter (fun x => (rank (snd x) =? r)%Z) l.
Proof.
  induction l as [|e l IH]; cbn [sort_by_rank fold_right]; [reflexivity|].
  fold (sort_by_rank l). rewrite insert_by_rank_filter. cbn [filter].
  now rewrite IH.
Qed.

(** *** The filter *)

Lemma matching_throws (query : string) (entries : Store) :
  matching toLowerCase query entries = None <->
  exists url, In (url, None) entries.
Proof.
  induction entries as [|[u [d|]] rest IH]; cbn [matching].
  - split; [discriminate | intros [url []]].
  - destruct (matching toLowerCase query rest) as [l|].
    + split; [discriminate|]. intros [url [H | H]]; [discriminate H|].
      exfalso. assert (Hn : Some l = None) by (apply IH; now exists url).
      discriminate Hn.
    + split; [|reflexivity]. intros _.
      destruct (proj1 IH eq_refl) as [url H]. exists url. now right.
  - split; [|reflexivity]. intros _. exists u. now left.
Qed.

Lemma matching_spec (query : string) (entries : Store) :
  forall l, matching toLowerCase query entries = Some l ->
  l = filter (fun e => contains query (toLowerCase (title (snd e))))
        (flat_map (fun e => match snd e with
                            | Some d => [(fst e, d)]
                            | None => []
                            end) entries).
Proof.
  induction entries as [|[u [d|]] rest IH]; cbn [matching]; intros l H.
  - now injection H as <-.
  - destruct (matching toLowerCase query rest) as [l0|]; [|discriminate].
    injection H as <-. cbn [flat_map snd fst app filter].
    rewrite (IH l0 eq_refl).
    now destruct (contains query (toLowerCase (title d))).
  - discriminate.
Qed.

Lemma matching_with_data (query : string) (entries : Store)
    (l : list (string * PageRecord)) :
  matching toLowerCase query entries = Some l ->
  with_data entries = flat_map (fun e => match snd e with
                                         | Some d => [(fst e, d)]
                                         | None => []
                                         end) entries /\
  l = filter (fun e => contains query (toLowerCase (title (snd e))))
        (with_data entries).
Proof. intros H. split; [reflexivity | now apply matching_spec]. Qed.

(** X14. The results are the stored entries whose title, in lower case,
    contains the query in lower case, ordered by rank from the highest
    down; entries of equal rank stay in the order of the page's copy (the
    sort is stable), and none is lost or repeated. *)
Theorem results_ranked (v : Page) (sorted : list (string * PageRecord)) :
  sortedResults toLowerCase v = Some sorted ->
  Permutation sorted
    (filter (fun e => contains (toLowerCase (searchQuery v))
                        (toLowerCase (title (snd e))))
       (with_data (store v))) /\
  StronglySorted by_rank sorted /\
  (forall r,
     filter (fun x => (rank (snd x) =? r)%Z) sorted
     = filter (fun x => (rank (snd x) =? r)%Z)
         (filter (fun e => contains (toLowerCase (searchQuery v))
                             (toLowerCase (title (snd e))))
            (with_data (store v)))) /\
  (forall e, In e sorted ->
     In (fst e, Some (snd e)) (store v) /\
     exists a b, toLowerCase (title (snd e))
                 = (a ++ toLowerCase (searchQuery v) ++ b)%string).
Proof.
  unfold sortedResults. intros H.
  destruct (matching toLowerCase (toLowerCase (searchQuery v)) (store v))
    as [l|] eqn:E; [|discriminate].
  injection H as <-. apply matching_spec in E. subst l.
  split; [apply sort_by_rank_perm|].
  split; [apply sort_by_rank_sorted|].
  split; [intros r; apply sort_by_rank_stable|].
  intros e He.
  apply (Permutation_in _ (sort_by_rank_perm _)) in He.
  apply filter_In in He as [Hin Hc]. split.
  - unfold with_data in Hin. apply in_flat_map in Hin as ([u d] & Hs & Hd).
    cbn [fst snd] in Hd. destruct d as [d|]; [|contradiction].
    destruct Hd as [<- | []]. exact Hs.
  - now apply contains_substring.
Qed.

(** *** Pages *)

Lemma totalPages_covers (n : nat) : n <= resultsPerPage * totalPages n.
Proof.
  unfold totalPages, resultsPerPage. cbn [Nat.sub].
  pose proof (Nat.div_mod (n + 9) 10 ltac:(discriminate)) as H.
  pose proof (Nat.mod_upper_bound (n + 9) 10 ltac:(discriminate)) as H'.
  lia.
Qed.





(** X16. The line [No results found] is shown exactly when no stored
    entry matches the query, and then there is no result and no pagination
    button; when some entry matches there is at least one button, and the
    button highlighted, if any, is the one of the current page. *)
Theorem no_results_line (page : nat) (v : Page) (r : Rendered) :
  displayResults toLowerCase page v = Some r ->
  (no_results r = true <->
   forall e, In e (with_data (store v)) ->
     contains (toLowerCase (searchQuery v)) (toLowerCase (title (snd e)))
     = false) /\
  (no_results r = true -> results r = [] /\ buttons r = []) /\
  (no_results r = false -> buttons r <> []) /\
  (forall i h, In (i, h) (buttons r) ->
     (h = true <-> i = currentPage v)).
Proof.
  unfold displayResults, sortedResults. intros H.
  destruct (matching toLowerCase (toLowerCase (searchQuery v)) (store v))
    as [l|] eqn:E; [|discriminate].
  cbn [option_map] in H. injection H as <-. cbn [no_results results buttons].
  apply matching_spec in E. fold (with_data (store v)) in E.
  assert (Hlen : List.length (sort_by_rank l) = List.length l)
    by (apply Permutation_length, sort_by_rank_perm).
  split; [|split; [|split]].
  - rewrite Nat.eqb_eq, Hlen, length_zero_iff_nil. subst l. split.
    + intros Hnil e He.
      destruct (contains _ (toLowerCase (title (snd e)))) eqn:Ec;
        [|reflexivity].
      assert (Hin : In e (filter
                (fun e => contains (toLowerCase (searchQuery v))
                            (toLowerCase (title (snd e))))
                (with_data (store v)))) by (apply filter_In; now split).
      rewrite Hnil in Hin. contradiction.
    + intros Hall.
      destruct (filter _ (with_data (store v))) as [|e l'] eqn:Ef;
        [reflexivity|].
      assert (Hin : In e (e :: l')) by now left.
      rewrite <- Ef in Hin. apply filter_In in Hin as [Hin Hc].
      rewrite (Hall e Hin) in Hc. discriminate.
  - rewrite Nat.eqb_eq. intros Hz.
    apply length_zero_iff_nil in Hz as Hnil. rewrite Hnil.
    split; [|reflexivity].
    destruct page as [|p]; [reflexivity|]. cbn [slice_page].
    now rewrite skipn_nil, firstn_nil.
  - rewrite Nat.eqb_neq. intros Hz Hb.
    apply (f_equal (@List.length _)) in Hb.
    unfold updatePagination in Hb. rewrite length_map, length_seq in Hb.
    cbn [length] in Hb.
    pose proof (totalPages_covers (List.length (sort_by_rank l))) as Hc.
    rewrite Hb in Hc. lia.
  - intros i h Hin. unfold updatePagination in Hin.
    apply in_map_iff in Hin as (j & [= <- <-] & _).
    apply Nat.eqb_eq.
Qed.

(** *** The page never fails on what the server sends *)





(** *** An empty search box *)

Lemma contains_empty (s : string) : contains EmptyString s = true.
Proof. now destruct s. Qed.

Lemma filter_all {A} (f : A -> bool) (l : list A) :
  (forall x, f x = true) -> filter f l = l.
Proof.
  intros H. induction l as [|x l IH]; cbn [filter]; [reflexivity|].
  now rewrite H, IH.
Qed.

(** X18. With an empty search box every stored entry is a result: the
    page lists its whole copy of the index, by rank.  (For any
    [toLowerCase] that maps the empty string to itself, as JavaScript's
    does.) *)
Theorem empty_query_lists_everything (v : Page)
    (sorted : list (string * PageRecord)) :
  toLowerCase "" = "" -> searchQuery v = "" ->
  sortedResults toLowerCase v = Some sorted ->
  Permutation sorted (with_data (store v)) /\
  List.length sorted = List.length (store v) /\
  StronglySorted by_rank sorted.
Proof.
  intros Hl Hq H. unfold sortedResults in H. rewrite Hq, Hl in H.
  destruct (matching toLowerCase "" (store v)) as [l|] eqn:E;
    [|discriminate].
  injection H as <-.
  assert (Hnone : forall url, ~ In (url, None) (store v)).
  { intros url Hin.
    assert (Hn : matching toLowerCase "" (store v) = None)
      by (apply matching_throws; now exists url).
    congruence. }
  apply matching_spec in E. fold (with_data (store v)) in E.
  rewrite filter_all in E by (intros; apply contains_empty). subst l.
  split; [apply sort_by_rank_perm|]. split; [|apply sort_by_rank_sorted].
  rewrite (Permutation_length (sort_by_rank_perm _)).
  clear - Hnone. induction (store v) as [|[u [d|]] s IH]; [reflexivity| |].
  - cbn [with_data flat_map snd fst app length]. f_equal. apply IH.
    intros url Hin. apply (Hnone url). now right.
  - exfalso. apply (Hnone u). now left.
Qed.

End Viewer.

Lemma results_ranked_witness :
  sortedResults (fun s => s) (page_of two_messages 1 "P") = Some two_results /\
  StronglySorted by_rank two_results.
Proof.
  assert (H : sortedResults (fun s => s) (page_of two_messages 1 "P")
              = Some two_results) by (vm_compute; reflexivity).
  split; [exact H|].
  apply (results_ranked (fun s => s) (page_of two_messages 1 "P")
           two_results H).
Defined.


Lemma no_results_line_witness :
  displayResults (fun s => s) 1 (page_of two_messages 1 "zzz")
    = Some (mkRendered [] true []) /\
  (no_results (mkRendered [] true []) = true ->
   results (mkRendered [] true []) = [] /\
   buttons (mkRendered [] true []) = []).
Proof.
  assert (H : displayResults (fun s => s) 1 (page_of two_messages 1 "zzz")
              = Some (mkRendered [] true [])) by (vm_compute; reflexivity).
  split; [exact H|].
  apply (no_results_line (fun s => s) 1 (page_of two_messages 1 "zzz")
           (mkRendered [] true []) H).
Defined.


Lemma empty_query_lists_everything_witness :
  sortedResults (fun s => s) (page_of two_messages 1 "") = Some two_results /\
  List.length two_results = List.length (store (page_of two_messages 1 "")).
Proof.
  assert (H : sortedResults (fun s => s) (page_of two_messages 1 "")
              = Some two_results) by (vm_compute; reflexivity).
  split; [exact H|].
  apply (empty_query_lists_everything (fun s => s)
           (page_of two_messages 1 "") two_results eq_refl eq_refl H).
Defined.
